(** * Flow: a client-side adapter around a Socket.IO connection

    A shallow embedding of [src/Fbeta.js] (class [Flow]) and the
    properties of its public contract.

    The adapter object is a record; its methods are actions of a small
    state-and-exception monad over a [World] that holds the adapter, the
    supply of connection handles and the chronological trace of everything
    the adapter does to its environment (calls into the Socket.IO library,
    console output, timers, calls of user callbacks).

    The environment is opaque. A call into the library ([io], [on], [emit],
    [disconnect] of a handle), into the console or into [setTimeout] is
    recorded and returns normally. A user callback is recorded when it is
    called; the call returns or raises, and the callback does not call the
    adapter while it runs. The library and the timer call back into the
    adapter only between two method calls ([notify], [fire]). The library
    keeps the option object it is handed and may write entries of its own
    into it ([LibraryWrites]). *)

From Stdlib Require Import ZArith String List.
From stdpp Require Import base gmap sets list strings.

Open Scope string_scope.
Open Scope list_scope.

(** ** JavaScript primitives used by the class *)

Module Js.

(** Values that travel through the adapter untouched: payloads, option
    values and error objects. *)
Inductive value :=
| Undefined
| Null
| Bool (b : bool)
| Num (n : Z)
| Str (s : string).

#[global] Instance value_eq_dec : EqDecision value.
Proof. solve_decision. Defined.

(** Exceptions: the one the class can raise by itself (calling a property
    that is not a function), and a value raised by a user callback. *)
Inductive exn :=
| TypeError (msg : string)
| Thrown (v : value).

#[global] Instance exn_eq_dec : EqDecision exn.
Proof. solve_decision. Defined.

(** [String.prototype.includes]: [sub] occurs somewhere in [s]. *)
Fixpoint includes (s sub : string) : bool :=
  if String.prefix sub s then true
  else match s with
       | EmptyString => false
       | String _ s' => includes s' sub
       end.

(** Truthiness of a parameter that is either [null] or a string: [null]
    and the empty string are falsy, every other string is truthy. *)
Definition truthy (v : option string) : bool :=
  match v with
  | Some (String _ _) => true
  | Some EmptyString => false
  | None => false
  end.

(** Property names every object literal inherits from [Object.prototype].
    Reading one of them from an object that has no own property of that
    name yields the inherited member, which is truthy and is not an
    array. *)
Definition Object_prototype : list string :=
  [ "constructor"; "hasOwnProperty"; "isPrototypeOf";
    "propertyIsEnumerable"; "toLocaleString"; "toString"; "valueOf";
    "__proto__"; "__defineGetter__"; "__defineSetter__";
    "__lookupGetter__"; "__lookupSetter__" ].

(** What [obj[key]] evaluates to, for an object literal whose own
    properties all hold arrays. *)
Inductive property (A : Type) :=
| Absent                     (* undefined *)
| Own (l : list A)           (* an own property: an array, truthy *)
| Inherited.                 (* a member of Object.prototype, truthy *)
Arguments Absent {A}.
Arguments Own {A} l.
Arguments Inherited {A}.

Definition get {A} (obj : gmap string (list A)) (key : string) : property A :=
  match obj !! key with
  | Some l => Own l
  | None => if bool_decide (key ∈ Object_prototype) then Inherited else Absent
  end.

End Js.
Import Js.

(** ** The environment of the adapter *)

(** A user callback is a host function. The adapter stores it, compares it
    by identity and calls it, nothing else: it is modelled by a name and by
    what a call of it does, return ([None]) or raise a value. Calling it is
    an entry of the trace. *)
Record callback := mkCallback {
  name : nat;
  raises : option value
}.

#[global] Instance callback_eq_dec : EqDecision callback.
Proof. solve_decision. Defined.

(** The callback of a given name that returns. *)
Definition named (n : nat) : callback := mkCallback n None.
Coercion named : nat >-> callback.

(** A connection handle returned by the library's [io] factory. Each call
    of [io] returns a new object. *)
Definition handle := nat.

(** The four arrow functions that [connect] registers on the socket. *)
Inductive arrow := OnConnect | OnDisconnect | OnError | OnConnectError.

(** A function registered on a socket: one of the adapter's own arrows, or
    a user callback handed over by [receive]. *)
Inductive listener := Arrow (a : arrow) | Fn (cb : callback).

(** The only closure the adapter ever passes to [setTimeout]. *)
Inductive timer := Reconnect.

Inductive effect :=
| Eio (u : string) (o : gmap string value) (h : handle)  (* h = io(u, o) *)
| Eon (h : handle) (event : string) (l : listener)       (* h.on(event, l) *)
| Eemit (h : handle) (event : string) (data : value)     (* h.emit(event, data) *)
| Edisconnect (h : handle)                               (* h.disconnect() *)
| Elog (msg : string)                                    (* console.log(msg) *)
| Eerror (msg : string) (err : value)                    (* console.error(msg, err) *)
| EsetTimeout (t : timer) (ms : Z)                       (* setTimeout(t, ms) *)
| Ecall (cb : callback) (args : list value).             (* cb(...args) *)

#[global] Instance arrow_eq_dec : EqDecision arrow.
Proof. solve_decision. Defined.
#[global] Instance listener_eq_dec : EqDecision listener.
Proof. solve_decision. Defined.
#[global] Instance timer_eq_dec : EqDecision timer.
Proof. solve_decision. Defined.
#[global] Instance effect_eq_dec : EqDecision effect.
Proof. solve_decision. Defined.

(** ** The adapter object *)

Record Flow := mkFlow {
  url : string;
  options : gmap string value;
  socket : option handle;
  eventListeners : gmap string (list callback);
  token : option string
}.

Record World := mkWorld {
  this : Flow;
  fresh : handle;
  trace : list effect
}.

(** ** The monad of method bodies

    A method body transforms the world and completes normally with a value
    or abruptly with an exception. Mutations made before a [throw] stay. *)

Inductive completion (A : Type) :=
| Normal (a : A)
| Throw (e : exn).
Arguments Normal {A} a.
Arguments Throw {A} e.

Definition M (A : Type) : Type := World → completion A * World.

#[global] Instance M_ret : MRet M := λ A a w, (Normal a, w).
#[global] Instance M_bind : MBind M := λ A B f m w,
  match m w with
  | (Normal a, w') => f a w'
  | (Throw e, w') => (Throw e, w')
  end.

Definition throw {A} (e : exn) : M A := λ w, (Throw e, w).
Definition read {A} (f : Flow → A) : M A := λ w, (Normal (f (this w)), w).
Definition write (f : Flow → Flow) : M unit :=
  λ w, (Normal (), mkWorld (f (this w)) (fresh w) (trace w)).
Definition perform (e : effect) : M unit :=
  λ w, (Normal (), mkWorld (this w) (fresh w) (trace w ++ [e])).
Definition history : M (list effect) := λ w, (Normal (trace w), w).

(** [forEach]: run [f] on the elements from left to right; an exception
    ends the loop. *)
Fixpoint forEach {A} (l : list A) (f : A → M unit) : M unit :=
  match l with
  | [] => mret ()
  | x :: l' => f x ;; forEach l' f
  end.

(** The world an action leaves behind, whatever its completion. *)
Definition exec {A} (m : M A) (w : World) : World := (m w).2.

(** Field assignments. *)
Definition set_url (u : string) (f : Flow) : Flow :=
  mkFlow u (options f) (socket f) (eventListeners f) (token f).
Definition set_options (o : gmap string value) (f : Flow) : Flow :=
  mkFlow (url f) o (socket f) (eventListeners f) (token f).
Definition set_socket (s : option handle) (f : Flow) : Flow :=
  mkFlow (url f) (options f) s (eventListeners f) (token f).
Definition set_eventListeners (r : gmap string (list callback)) (f : Flow) : Flow :=
  mkFlow (url f) (options f) (socket f) r (token f).
Definition set_token (t : option string) (f : Flow) : Flow :=
  mkFlow (url f) (options f) (socket f) (eventListeners f) t.

(** ** Calls into the library *)

(** [io(url, options)]: a new handle. The library keeps the option object
    it is handed; what it writes into it is [libraryWrites], below. *)
Definition io (u : string) (o : gmap string value) : M handle :=
  λ w, (Normal (fresh w),
        mkWorld (this w) (S (fresh w)) (trace w ++ [Eio u o (fresh w)])).

(** ** The class *)

(** [constructor(url = 'http://localhost:3000', options = {})]; an omitted
    argument is [None]. *)
Definition constructor (url : option string) (options : option (gmap string value)) : World :=
  mkWorld
    (mkFlow (default "http://localhost:3000" url) (default ∅ options) None
            {[ "connect" := []; "disconnect" := []; "error" := [] ]}
            None)
    0 [].

Definition appendTokenToURL (url token : string) : string :=
  let separator := if includes url "?" then "&" else "?" in
  url +:+ separator +:+ "token=" +:+ token.

Definition connect (token : option string) : M unit :=
  (match token with
   | Some t =>
       if truthy token then
         write (set_token (Some t)) ;;
         u ← read url ;
         write (set_url (appendTokenToURL u t))
       else mret ()
   | None => mret ()
   end) ;;
  u ← read url ;
  o ← read options ;
  h ← io u o ;
  write (set_socket (Some h)) ;;
  perform (Eon h "connect" (Arrow OnConnect)) ;;
  perform (Eon h "disconnect" (Arrow OnDisconnect)) ;;
  perform (Eon h "error" (Arrow OnError)) ;;
  perform (Eon h "connect_error" (Arrow OnConnectError)).

Definition clearEventListeners : M unit :=
  write (λ f, set_eventListeners ((λ _, []) <$> eventListeners f) f).

Definition disconnect : M unit :=
  s ← read socket ;
  match s with
  | Some h => perform (Edisconnect h) ;; clearEventListeners
  | None => mret ()
  end.

Definition send (event : string) (data : value) : M unit :=
  s ← read socket ;
  match s with
  | Some h => perform (Eemit h event data)
  | None => mret ()
  end.

Definition receive (event : string) (callback : callback) : M unit :=
  s ← read socket ;
  match s with
  | Some h => perform (Eon h event (Fn callback))
  | None => mret ()
  end.

Definition on (event : string) (callback : callback) : M unit :=
  r ← read eventListeners ;
  match get r event with
  | Own l => write (set_eventListeners (<[event := l ++ [callback]]> r))
  | Inherited => throw (TypeError "this.eventListeners[event].push is not a function")
  | Absent => mret ()
  end.

Definition off (event : string) (callback : callback) : M unit :=
  r ← read eventListeners ;
  match get r event with
  | Own l =>
      write (set_eventListeners
               (<[event := filter (λ cb, cb ≠ callback) l]> r))
  | Inherited => throw (TypeError "this.eventListeners[event].filter is not a function")
  | Absent => mret ()
  end.

(** [callback(...args)]: the call is made; it returns, or the value the
    callback raises goes on to the caller. *)
Definition call (callback : callback) (args : list value) : M unit :=
  perform (Ecall callback args) ;;
  match raises callback with
  | Some v => throw (Thrown v)
  | None => mret ()
  end.

Definition triggerEvent (event : string) (args : list value) : M unit :=
  r ← read eventListeners ;
  match get r event with
  | Own l => forEach l (λ callback, call callback args)
  | Inherited => throw (TypeError "this.eventListeners[event].forEach is not a function")
  | Absent => mret ()
  end.

Definition handleConnect : M unit :=
  perform (Elog "Connected to server") ;;
  triggerEvent "connect" [].

Definition handleDisconnect : M unit :=
  perform (Elog "Disconnected from server") ;;
  triggerEvent "disconnect" [].

Definition handleError (error : value) : M unit :=
  perform (Eerror "Connection error:" error) ;;
  triggerEvent "error" [error].

Definition handleConnectError (error : value) : M unit :=
  perform (Eerror "Connection error, attempting to reconnect:" error) ;;
  perform (EsetTimeout Reconnect 3000).

Definition setOptions (opts : gmap string value) : M unit :=
  write (λ f, set_options (opts ∪ options f) f) ;;
  s ← read socket ;
  match s with
  | Some h => perform (Edisconnect h) ;; t ← read token ; connect t
  | None => mret ()
  end.

(** ** Notifications and timers

    The library calls back into the adapter: it delivers an event on a
    handle to the functions registered on that handle for that event, in
    registration order, and the timer calls the closure it was given. *)

(** The functions registered on handle [h] for [event], oldest first. *)
Definition listeners (tr : list effect) (h : handle) (event : string) : list listener :=
  omap (λ e, match e with
             | Eon h' event' l =>
                 if Nat.eqb h' h && String.eqb event' event then Some l else None
             | _ => None
             end) tr.

(** Calling a registered function with the arguments of the notification.
    The arrows of [connect] pass on at most the first argument; what they
    raise ends the delivery. A function handed over by [receive] is called
    by the library, outside the adapter: the call is recorded, and what the
    library does when such a function raises is not modelled. *)
Definition invoke (args : list value) (l : listener) : M unit :=
  match l with
  | Arrow OnConnect => handleConnect
  | Arrow OnDisconnect => handleDisconnect
  | Arrow OnError => handleError (hd Undefined args)
  | Arrow OnConnectError => handleConnectError (hd Undefined args)
  | Fn cb => perform (Ecall cb args)
  end.

Definition notify (h : handle) (event : string) (args : list value) : M unit :=
  tr ← history ;
  forEach (listeners tr h event) (invoke args).

(** The closure of [handleConnectError]: [() => { this.connect(this.token) }]. *)
Definition fire (t : timer) : M unit :=
  match t with
  | Reconnect => tok ← read token ; connect tok
  end.

(** [connect] hands [this.options] itself to [io], not a copy, and the
    library writes entries of its own into the object it was handed. While
    a handle is stored the current option object is one the library holds
    (only [setOptions] replaces it, and it reconnects when a handle is
    stored); before the first [connect] the library holds none. *)
Definition libraryWrites (entries : gmap string value) : M unit :=
  s ← read socket ;
  match s with
  | Some _ => write (λ f, set_options (entries ∪ options f) f)
  | None => mret ()
  end.

(** ** Histories of an adapter instance *)

Inductive action :=
| Connect (token : option string)
| Disconnect
| Send (event : string) (data : value)
| Receive (event : string) (cb : callback)
| On (event : string) (cb : callback)
| Off (event : string) (cb : callback)
| SetOptions (opts : gmap string value)
| Notify (h : handle) (event : string) (args : list value)
| Fire (t : timer)
| LibraryWrites (entries : gmap string value).

Definition step (a : action) : M unit :=
  match a with
  | Connect t => connect t
  | Disconnect => disconnect
  | Send e d => send e d
  | Receive e cb => receive e cb
  | On e cb => on e cb
  | Off e cb => off e cb
  | SetOptions o => setOptions o
  | Notify h e args => notify h e args
  | Fire t => fire t
  | LibraryWrites entries => libraryWrites entries
  end.

(** A caller that has caught an exception carries on with the adapter as
    the failed call left it. *)
Definition run (acts : list action) (w : World) : World :=
  fold_left (λ w a, exec (step a) w) acts w.

(** The part of the trace added since an earlier world. *)
Definition since (w0 w : World) : list effect :=
  drop (length (trace w0)) (trace w).

(** ** Vocabulary of the statements *)

(** The URL [connect] hands to [io]. *)
Definition effective_url (f : Flow) (tok : option string) : string :=
  match tok with
  | Some t => if truthy tok then appendTokenToURL (url f) t else url f
  | None => url f
  end.

(** The token [connect] leaves stored. *)
Definition stored_token (f : Flow) (tok : option string) : option string :=
  if truthy tok then tok else token f.

(** The four registrations [connect] makes on a new handle. *)
Definition wiring (h : handle) : list effect :=
  [ Eon h "connect" (Arrow OnConnect);
    Eon h "disconnect" (Arrow OnDisconnect);
    Eon h "error" (Arrow OnError);
    Eon h "connect_error" (Arrow OnConnectError) ].

(** Effects that neither call into the library nor create a handle. *)
Definition passive (e : effect) : bool :=
  match e with
  | Elog _ | Eerror _ _ | EsetTimeout _ _ | Ecall _ _ => true
  | _ => false
  end.

(** [w'] differs from [w] by passive effects only. *)
Definition quiet (w w' : World) : Prop :=
  this w' = this w ∧ fresh w' = fresh w ∧
  ∃ es, trace w' = trace w ++ es ∧ forallb passive es = true.

(** The three lifecycle event names. *)
Definition lifecycle : gset string := {[ "connect"; "disconnect"; "error" ]}.

(** Handles in use were all returned by [io]. *)
Definition handles_ok (w : World) : Prop :=
  (∀ h, socket (this w) = Some h → h < fresh w) ∧
  (∀ h event l, Eon h event l ∈ trace w → h < fresh w).

(** How many times a callback is called in a stretch of the trace. *)
Definition times_called (cb : callback) (es : list effect) : nat :=
  length (List.filter (λ e, match e with
                            | Ecall c _ => bool_decide (c = cb)
                            | _ => false
                            end) es).

(** [cb] is not in the registry sequence of [e]. *)
Definition unregistered (e : string) (cb : callback) (w : World) : Prop :=
  ∀ l, eventListeners (this w) !! e = Some l → cb ∉ l.

(** The adapter's own functions among the registered ones. *)
Definition is_arrow (l : listener) : bool :=
  match l with Arrow _ => true | Fn _ => false end.

(** Calls of [setTimeout]. *)
Definition is_timer (e : effect) : bool :=
  match e with EsetTimeout _ _ => true | _ => false end.

(** On every handle that [io] has returned, the adapter's own functions
    are the four arrows of [connect], once each. *)
Definition wired (w : World) : Prop :=
  ∀ h e, h < fresh w →
    List.filter is_arrow (listeners (trace w) h e) = listeners (wiring h) h e.

(** What the functions registered for connect-error do when called. *)
Definition connect_error_effects (args : list value) (l : listener) : list effect :=
  match l with
  | Arrow _ => [ Eerror "Connection error, attempting to reconnect:" (hd Undefined args);
                 EsetTimeout Reconnect 3000 ]
  | Fn cb => [ Ecall cb args ]
  end.

(** A connected adapter that holds a token: the state [connect] reaches
    when it is given a token that is neither [null] nor empty. *)
Definition tokened (w : World) : Prop :=
  is_Some (socket (this w)) ∧
  truthy (token (this w)) = true ∧
  includes (url (this w)) "?" = true.

(** The callbacks [forEach] calls in a sequence: all of them up to and
    including the first one that raises. *)
Fixpoint called (l : list callback) : list callback :=
  match l with
  | [] => []
  | cb :: l' => cb :: match raises cb with
                      | Some _ => []
                      | None => called l'
                      end
  end.

(** How [forEach] over a sequence of callbacks completes: with what the
    first callback that raises has raised, or normally. *)
Fixpoint outcome (l : list callback) : completion unit :=
  match l with
  | [] => Normal ()
  | cb :: l' => match raises cb with
                | Some v => Throw (Thrown v)
                | None => outcome l'
                end
  end.

(** Actions that open no connection: everything but [connect] and the
    reconnect timer. *)
Definition offline (a : action) : bool :=
  match a with
  | Connect _ | Fire _ => false
  | _ => true
  end.

(** Calls of [disconnect] on a handle. *)
Definition is_disconnect (e : effect) : bool :=
  match e with Edisconnect _ => true | _ => false end.

(** Calls of [io]. *)
Definition is_io (e : effect) : bool :=
  match e with Eio _ _ _ => true | _ => false end.

(** Actions that hand no token to [connect]: every action but a [connect]
    with a token that is neither [null] nor empty. *)
Definition anonymous (a : action) : bool :=
  match a with
  | Connect t => negb (truthy t)
  | _ => true
  end.

(** The handle stored after [n] calls of [io]: the last one returned. *)
Definition latest (n : nat) : option handle :=
  match n with
  | 0 => None
  | S h => Some h
  end.

(** * Lemmas *)

(** ** Equations of the methods *)

Ltac unfold_M :=
  unfold mbind, M_bind, mret, M_ret, read, write, perform, io, throw, history.

Lemma connect_eq tok w :
  connect tok w =
  (Normal (),
   mkWorld (mkFlow (effective_url (this w) tok) (options (this w))
                   (Some (fresh w)) (eventListeners (this w))
                   (stored_token (this w) tok))
           (S (fresh w))
           (trace w ++ Eio (effective_url (this w) tok) (options (this w)) (fresh w)
                       :: wiring (fresh w))).
Proof.
  unfold connect, effective_url, stored_token, wiring.
  destruct tok as [[|c t]|]; unfold_M; cbn [truthy this fresh trace url options
    socket eventListeners token set_token set_url set_socket];
    rewrite <- !app_assoc; reflexivity.
Qed.

Lemma disconnect_eq w :
  disconnect w =
  (Normal (),
   match socket (this w) with
   | Some h =>
       mkWorld (set_eventListeners ((λ _, []) <$> eventListeners (this w)) (this w))
               (fresh w) (trace w ++ [Edisconnect h])
   | None => w
   end).
Proof.
  unfold disconnect, clearEventListeners. unfold_M. cbn.
  destruct (socket (this w)); reflexivity.
Qed.

Lemma send_eq event data w :
  send event data w =
  (Normal (),
   match socket (this w) with
   | Some h => mkWorld (this w) (fresh w) (trace w ++ [Eemit h event data])
   | None => w
   end).
Proof. unfold send. unfold_M. cbn. destruct (socket (this w)); reflexivity. Qed.

Lemma receive_eq event cb w :
  receive event cb w =
  (Normal (),
   match socket (this w) with
   | Some h => mkWorld (this w) (fresh w) (trace w ++ [Eon h event (Fn cb)])
   | None => w
   end).
Proof. unfold receive. unfold_M. cbn. destruct (socket (this w)); reflexivity. Qed.

Lemma on_eq event cb w :
  on event cb w =
  match get (eventListeners (this w)) event with
  | Own l =>
      (Normal (),
       mkWorld (set_eventListeners (<[event := l ++ [cb]]> (eventListeners (this w))) (this w))
               (fresh w) (trace w))
  | Inherited =>
      (Throw (TypeError "this.eventListeners[event].push is not a function"), w)
  | Absent => (Normal (), w)
  end.
Proof.
  unfold on. unfold_M. cbn [fst snd this].
  destruct (get (eventListeners (this w)) event); reflexivity.
Qed.

Lemma off_eq event cb w :
  off event cb w =
  match get (eventListeners (this w)) event with
  | Own l =>
      (Normal (),
       mkWorld (set_eventListeners
                  (<[event := filter (λ c, c ≠ cb) l]> (eventListeners (this w))) (this w))
               (fresh w) (trace w))
  | Inherited =>
      (Throw (TypeError "this.eventListeners[event].filter is not a function"), w)
  | Absent => (Normal (), w)
  end.
Proof.
  unfold off. unfold_M. cbn [fst snd this].
  destruct (get (eventListeners (this w)) event); reflexivity.
Qed.

Lemma forEach_perform {A} (f : A → effect) (l : list A) w :
  forEach l (λ x, perform (f x)) w =
  (Normal (), mkWorld (this w) (fresh w) (trace w ++ map f l)).
Proof.
  revert w. induction l as [|x l IH]; intros w; cbn [forEach map].
  - unfold_M. rewrite app_nil_r. destruct w; reflexivity.
  - unfold mbind, M_bind. unfold perform at 1. rewrite IH. cbn [this fresh trace].
    rewrite <- app_assoc. reflexivity.
Qed.

Lemma forEach_call args (l : list callback) w :
  forEach l (λ cb, call cb args) w =
  (outcome l,
   mkWorld (this w) (fresh w) (trace w ++ map (λ cb, Ecall cb args) (called l))).
Proof.
  revert w. induction l as [|cb l IH]; intros w; cbn [forEach called outcome map].
  - unfold_M. rewrite app_nil_r. destruct w; reflexivity.
  - unfold mbind, M_bind, call. unfold perform at 1. unfold mbind, M_bind.
    destruct (raises cb) as [v|]; unfold throw, mret, M_ret.
    + reflexivity.
    + rewrite IH. cbn [this fresh trace map]. rewrite <- app_assoc. reflexivity.
Qed.

Lemma triggerEvent_eq event args w :
  triggerEvent event args w =
  match get (eventListeners (this w)) event with
  | Own l =>
      (outcome l,
       mkWorld (this w) (fresh w) (trace w ++ map (λ cb, Ecall cb args) (called l)))
  | Inherited =>
      (Throw (TypeError "this.eventListeners[event].forEach is not a function"), w)
  | Absent => (Normal (), w)
  end.
Proof.
  unfold triggerEvent. unfold mbind, M_bind, read. cbn [fst snd this].
  destruct (get (eventListeners (this w)) event); try reflexivity.
  apply forEach_call.
Qed.

Lemma handleConnectError_eq error w :
  handleConnectError error w =
  (Normal (),
   mkWorld (this w) (fresh w)
           (trace w ++ [ Eerror "Connection error, attempting to reconnect:" error;
                         EsetTimeout Reconnect 3000 ])).
Proof.
  unfold handleConnectError. unfold_M. cbn [this fresh trace].
  rewrite <- app_assoc. reflexivity.
Qed.

Lemma setOptions_eq opts w :
  setOptions opts w =
  match socket (this w) with
  | Some h =>
      connect (token (this w))
              (mkWorld (set_options (opts ∪ options (this w)) (this w))
                       (fresh w) (trace w ++ [Edisconnect h]))
  | None =>
      (Normal (),
       mkWorld (set_options (opts ∪ options (this w)) (this w)) (fresh w) (trace w))
  end.
Proof.
  unfold setOptions. unfold_M.
  cbn [this fresh trace set_options socket token].
  destruct (socket (this w)); reflexivity.
Qed.

Lemma fire_eq t w : fire t w = connect (token (this w)) w.
Proof. destruct t. reflexivity. Qed.

Lemma libraryWrites_eq entries w :
  libraryWrites entries w =
  (Normal (),
   match socket (this w) with
   | Some _ =>
       mkWorld (set_options (entries ∪ options (this w)) (this w)) (fresh w) (trace w)
   | None => w
   end).
Proof.
  unfold libraryWrites. unfold_M. cbn. destruct (socket (this w)); reflexivity.
Qed.

(** ** What notifications can do

    A notification never assigns a field of the adapter and never calls
    into the library: it only logs, calls callbacks and sets timers. *)

Lemma quiet_refl w : quiet w w.
Proof. repeat split. exists []. by rewrite app_nil_r. Qed.

Lemma quiet_trans w1 w2 w3 : quiet w1 w2 → quiet w2 w3 → quiet w1 w3.
Proof.
  intros (Ht & Hf & es & He & Hp) (Ht' & Hf' & es' & He' & Hp').
  repeat split; [congruence | congruence |].
  exists (es ++ es'). split.
  - rewrite He', He, app_assoc. reflexivity.
  - rewrite forallb_app, Hp, Hp'. reflexivity.
Qed.

Lemma quiet_perform e w : passive e = true → quiet w (exec (perform e) w).
Proof.
  intros He. repeat split. exists [e]. split; [reflexivity|].
  cbn. by rewrite He.
Qed.

Lemma quiet_triggerEvent event args w : quiet w (exec (triggerEvent event args) w).
Proof.
  unfold exec. rewrite triggerEvent_eq.
  destruct (get (eventListeners (this w)) event) as [|l|]; try apply quiet_refl.
  repeat split. exists (map (λ cb, Ecall cb args) (called l)).
  split; [reflexivity|].
  induction (called l); [reflexivity | assumption].
Qed.

Lemma exec_bind {A B} (m : M A) (k : A → M B) w :
  exec (m ≫= k) w =
  match m w with
  | (Normal a, w') => exec (k a) w'
  | (Throw _, w') => w'
  end.
Proof. unfold exec, mbind, M_bind. destruct (m w) as [[a|e] w']; reflexivity. Qed.

Lemma quiet_invoke args l w : quiet w (exec (invoke args l) w).
Proof.
  destruct l as [[]|cb]; cbn [invoke].
  - unfold handleConnect. rewrite exec_bind. unfold perform at 1.
    eapply quiet_trans; [apply (quiet_perform (Elog "Connected to server")); reflexivity|].
    apply quiet_triggerEvent.
  - unfold handleDisconnect. rewrite exec_bind. unfold perform at 1.
    eapply quiet_trans; [apply (quiet_perform (Elog "Disconnected from server")); reflexivity|].
    apply quiet_triggerEvent.
  - unfold handleError. rewrite exec_bind. unfold perform at 1.
    eapply quiet_trans;
      [apply (quiet_perform (Eerror "Connection error:" (hd Undefined args))); reflexivity|].
    apply quiet_triggerEvent.
  - unfold exec. rewrite handleConnectError_eq.
    repeat split. eexists. split; reflexivity.
  - apply quiet_perform. reflexivity.
Qed.

Lemma quiet_forEach_invoke args ls w : quiet w (exec (forEach ls (invoke args)) w).
Proof.
  revert w. induction ls as [|l ls IH]; intros w; cbn [forEach].
  - apply quiet_refl.
  - rewrite exec_bind.
    pose proof (quiet_invoke args l w) as Hq. unfold exec in Hq.
    destruct (invoke args l w) as [[[]|e] w']; cbn [snd] in Hq.
    + eapply quiet_trans; [exact Hq | apply IH].
    + exact Hq.
Qed.

Lemma quiet_notify h event args w : quiet w (exec (notify h event args) w).
Proof.
  unfold notify. rewrite exec_bind. unfold history.
  apply quiet_forEach_invoke.
Qed.

(** ** Invariants of every history *)

(** Every method keeps the set of keys of the registry. *)
Lemma step_dom a w :
  dom (eventListeners (this (exec (step a) w))) = dom (eventListeners (this w)).
Proof.
  destruct a as [tok| |e d|e cb|e cb|e cb|o|h e args|t|lw]; unfold exec; cbn [step].
  - rewrite connect_eq. reflexivity.
  - rewrite disconnect_eq. cbn [snd].
    destruct (socket (this w)); [|reflexivity]. cbn. apply dom_fmap_L.
  - rewrite send_eq. cbn [snd]. destruct (socket (this w)); reflexivity.
  - rewrite receive_eq. cbn [snd]. destruct (socket (this w)); reflexivity.
  - rewrite on_eq. unfold get.
    destruct (eventListeners (this w) !! e) as [l|] eqn:El.
    + cbn. apply dom_insert_lookup_L. eauto.
    + case_bool_decide; reflexivity.
  - rewrite off_eq. unfold get.
    destruct (eventListeners (this w) !! e) as [l|] eqn:El.
    + cbn. apply dom_insert_lookup_L. eauto.
    + case_bool_decide; reflexivity.
  - rewrite setOptions_eq. destruct (socket (this w)); [|reflexivity].
    rewrite connect_eq. reflexivity.
  - destruct (quiet_notify h e args w) as (Ht & _). unfold exec in Ht.
    rewrite Ht. reflexivity.
  - rewrite fire_eq, connect_eq. reflexivity.
  - rewrite libraryWrites_eq. cbn [snd]. by destruct (socket (this w)).
Qed.

Lemma run_app acts1 acts2 w : run (acts1 ++ acts2) w = run acts2 (run acts1 w).
Proof. apply fold_left_app. Qed.

Lemma run_dom acts w :
  dom (eventListeners (this (run acts w))) = dom (eventListeners (this w)).
Proof.
  revert w. induction acts as [|a acts IH]; intros w; [reflexivity|].
  cbn [run fold_left]. fold (run acts (exec (step a) w)).
  rewrite IH. apply step_dom.
Qed.

Lemma constructor_dom u o :
  dom (eventListeners (this (constructor u o))) = lifecycle.
Proof. vm_compute. reflexivity. Qed.

Lemma reachable_dom u o acts :
  dom (eventListeners (this (run acts (constructor u o)))) = lifecycle.
Proof. rewrite run_dom. apply constructor_dom. Qed.

Lemma handles_ok_connect tok w : handles_ok w → handles_ok (exec (connect tok) w).
Proof.
  intros [Hs Ht]. unfold exec. rewrite connect_eq. split; cbn.
  - intros h [= <-]. lia.
  - intros h event l Hin. apply elem_of_app in Hin as [Hin|Hin].
    + apply Ht in Hin. lia.
    + unfold wiring in Hin. rewrite !elem_of_cons in Hin.
      destruct Hin as [Hin|[Hin|[Hin|[Hin|[Hin|Hin]]]]];
        try discriminate; try (injection Hin as -> _ _; lia).
      by apply elem_of_nil in Hin.
Qed.

Lemma handles_ok_quiet w w' : quiet w w' → handles_ok w → handles_ok w'.
Proof.
  intros (Ht & Hf & es & He & Hp) [Hs Hh]. split.
  - rewrite Ht, Hf. exact Hs.
  - intros h event l Hin. rewrite Hf. rewrite He in Hin.
    apply elem_of_app in Hin as [Hin|Hin]; [eauto|].
    rewrite forallb_forall in Hp. apply list_elem_of_In in Hin.
    apply Hp in Hin. discriminate.
Qed.

Lemma step_handles_ok a w : handles_ok w → handles_ok (exec (step a) w).
Proof.
  intros Hok.
  destruct a as [tok| |e d|e cb|e cb|e cb|o|h e args|t|lw]; cbn [step].
  - by apply handles_ok_connect.
  - destruct Hok as [Hs Hh]. unfold exec. rewrite disconnect_eq. cbn [snd].
    destruct (socket (this w)) as [h|] eqn:Es; [|by rewrite <- Es in Hs].
    split; cbn.
    + rewrite Es. intros h' [= <-]. by apply Hs.
    + intros h' ev l Hin. apply elem_of_app in Hin as [Hin|Hin]; [eauto|].
      apply list_elem_of_singleton in Hin. discriminate.
  - destruct Hok as [Hs Hh]. unfold exec. rewrite send_eq. cbn [snd].
    destruct (socket (this w)) as [h|] eqn:Es; [|by rewrite <- Es in Hs].
    split; cbn.
    + rewrite Es. intros h' [= <-]. by apply Hs.
    + intros h' ev l Hin. apply elem_of_app in Hin as [Hin|Hin]; [eauto|].
      apply list_elem_of_singleton in Hin. discriminate.
  - destruct Hok as [Hs Hh]. unfold exec. rewrite receive_eq. cbn [snd].
    destruct (socket (this w)) as [h|] eqn:Es; [|by rewrite <- Es in Hs].
    split; cbn.
    + rewrite Es. intros h' [= <-]. by apply Hs.
    + intros h' ev l Hin. apply elem_of_app in Hin as [Hin|Hin]; [eauto|].
      apply list_elem_of_singleton in Hin. injection Hin as -> _ _. by apply Hs.
  - unfold exec. rewrite on_eq.
    destruct (get (eventListeners (this w)) e); exact Hok.
  - unfold exec. rewrite off_eq.
    destruct (get (eventListeners (this w)) e); exact Hok.
  - destruct Hok as [Hs Hh]. unfold exec. rewrite setOptions_eq.
    destruct (socket (this w)) as [h|] eqn:Es.
    + apply handles_ok_connect. split; cbn.
      * rewrite Es. intros h' [= <-]. by apply Hs.
      * intros h' ev l Hin. apply elem_of_app in Hin as [Hin|Hin]; [eauto|].
        apply list_elem_of_singleton in Hin. discriminate.
    + split; cbn; [by rewrite Es | exact Hh].
  - eapply handles_ok_quiet; [apply quiet_notify | exact Hok].
  - unfold exec. rewrite fire_eq. by apply handles_ok_connect.
  - unfold exec. rewrite libraryWrites_eq. cbn [snd].
    destruct (socket (this w)) as [h|] eqn:Es; [|exact Hok].
    destruct Hok as [Hs Hh]. split; [exact Hs | exact Hh].
Qed.

Lemma run_handles_ok acts w : handles_ok w → handles_ok (run acts w).
Proof.
  revert w. induction acts as [|a acts IH]; intros w Hok; [exact Hok|].
  cbn [run fold_left]. fold (run acts (exec (step a) w)).
  apply IH, step_handles_ok, Hok.
Qed.

Lemma reachable_handles_ok u o acts : handles_ok (run acts (constructor u o)).
Proof.
  apply run_handles_ok. split; cbn; [discriminate|].
  intros h event l Hin. by apply elem_of_nil in Hin.
Qed.

(** ** Strings *)

Lemma append_nil_r (s : string) : s +:+ "" = s.
Proof.
  induction s as [|c s IH]; [reflexivity|].
  change (String c (s +:+ "") = String c s). by f_equal.
Qed.

Lemma append_assoc (a b c : string) : (a +:+ b) +:+ c = a +:+ (b +:+ c).
Proof.
  induction a as [|x a IH]; [reflexivity|].
  change (String x ((a +:+ b) +:+ c) = String x (a +:+ (b +:+ c))). by f_equal.
Qed.

Lemma prefix_spec (p s : string) :
  String.prefix p s = true ↔ ∃ b, s = p +:+ b.
Proof.
  revert s. induction p as [|c p IH]; intros s.
  - split; [intros _; by exists s | intros _; by destruct s].
  - destruct s as [|d s]; cbn [String.prefix].
    + split; [discriminate | intros [b Hb]; discriminate].
    + change (String c p +:+ ?b) with (String c (p +:+ b)).
      destruct (Ascii.ascii_dec c d) as [->|Hne].
      * rewrite IH. split; intros [b Hb]; exists b; congruence.
      * split; [discriminate | intros [b Hb]; congruence].
Qed.

(** [includes] is substring search. *)
Lemma includes_spec (s sub : string) :
  includes s sub = true ↔ ∃ a b, s = a +:+ sub +:+ b.
Proof.
  induction s as [|c s IH]; cbn [includes].
  - destruct (String.prefix sub "") eqn:Ep.
    + split; [intros _ | reflexivity].
      apply prefix_spec in Ep as [b Hb]. exists "", b. exact Hb.
    + split; [discriminate|]. intros (a & b & Hab).
      destruct a; [|discriminate]. cbn in Hab.
      assert (String.prefix sub "" = true) by (apply prefix_spec; eauto).
      congruence.
  - destruct (String.prefix sub (String c s)) eqn:Ep.
    + split; [intros _ | reflexivity].
      apply prefix_spec in Ep as [b Hb]. exists "", b. exact Hb.
    + rewrite IH. split.
      * intros (a & b & ->). exists (String c a), b. reflexivity.
      * intros (a & b & Hab). destruct a as [|d a].
        -- cbn in Hab.
           assert (String.prefix sub (String c s) = true)
             by (apply prefix_spec; eauto).
           congruence.
        -- injection Hab as -> ->. eauto.
Qed.

Lemma includes_append (s x sub : string) :
  includes s sub = true → includes (s +:+ x) sub = true.
Proof.
  rewrite !includes_spec. intros (a & b & ->).
  exists a, (b +:+ x). by rewrite !append_assoc.
Qed.

Lemma appendTokenToURL_includes url token :
  includes (appendTokenToURL url token) "?" = true ∧
  includes (appendTokenToURL url token) ("token=" +:+ token) = true.
Proof.
  unfold appendTokenToURL. split.
  - destruct (includes url "?") eqn:E.
    + by apply includes_append.
    + apply includes_spec. exists url, ("token=" +:+ token). reflexivity.
  - apply includes_spec.
    exists (url +:+ (if includes url "?" then "&" else "?")), "".
    by rewrite append_nil_r, !append_assoc.
Qed.

Lemma since_app w0 w es : trace w = trace w0 ++ es → since w0 w = es.
Proof. unfold since. intros ->. apply drop_app_length. Qed.

Lemma truthy_Some t : truthy (Some t) = true ↔ t ≠ "".
Proof. destruct t; cbn; split; congruence. Qed.

(** ** Registrations *)

Lemma get_own {A} (r : gmap string (list A)) e l : r !! e = Some l → get r e = Own l.
Proof. unfold get. by intros ->. Qed.

Lemma lifecycle_not_inherited e : e ∈ lifecycle → e ∉ Object_prototype.
Proof.
  unfold lifecycle. rewrite !elem_of_union, !elem_of_singleton.
  intros [[->| ->]| ->] Hin; apply list_elem_of_In in Hin; cbn in Hin;
    intuition discriminate.
Qed.

Lemma reachable_registered u o acts e :
  e ∈ lifecycle →
  ∃ l, eventListeners (this (run acts (constructor u o))) !! e = Some l.
Proof.
  intros He. rewrite <- (reachable_dom u o acts) in He.
  apply elem_of_dom in He as [l Hl]. eauto.
Qed.

Lemma reachable_unregistered u o acts e :
  e ∉ lifecycle →
  eventListeners (this (run acts (constructor u o))) !! e = None.
Proof.
  intros He. rewrite <- (reachable_dom u o acts) in He.
  by apply not_elem_of_dom in He.
Qed.

Lemma run_cons a acts w : run (a :: acts) w = run acts (exec (step a) w).
Proof. reflexivity. Qed.

(** A run of [on(e, cb)] calls appends the callbacks in call order. *)
Lemma run_on_many e cbs w l :
  eventListeners (this w) !! e = Some l →
  run (map (On e) cbs) w =
  mkWorld (set_eventListeners (<[e := l ++ cbs]> (eventListeners (this w))) (this w))
          (fresh w) (trace w).
Proof.
  revert w l. induction cbs as [|cb cbs IH]; intros w l Hl.
  - cbn [map run fold_left]. rewrite app_nil_r, insert_id by exact Hl.
    destruct w as [[]]; reflexivity.
  - cbn [map]. rewrite run_cons. unfold exec. cbn [step].
    rewrite on_eq, (get_own _ _ _ Hl). cbn [snd].
    rewrite (IH _ (l ++ [cb])) by (cbn; apply lookup_insert_eq).
    cbn. rewrite insert_insert_eq, <- app_assoc. reflexivity.
Qed.

(** On a handle that [io] has just returned, the only functions registered
    are the four arrows. *)
Lemma listeners_none tr h e :
  (∀ h' e' l, Eon h' e' l ∈ tr → h' ≠ h) → listeners tr h e = [].
Proof.
  induction tr as [|x tr IH]; intros Hne; [reflexivity|].
  unfold listeners in *. cbn [omap list_omap].
  rewrite IH by (intros h' e' l Hin; eapply Hne; right; exact Hin).
  destruct x as [| h' e' l | | | | | |]; try reflexivity.
  assert (h' ≠ h) as Hh by (eapply Hne; left).
  apply Nat.eqb_neq in Hh. rewrite Hh. reflexivity.
Qed.

Lemma listeners_after_connect tok w e :
  handles_ok w →
  listeners (trace (exec (connect tok) w)) (fresh w) e =
  listeners (wiring (fresh w)) (fresh w) e.
Proof.
  intros [_ Hh]. unfold exec. rewrite connect_eq. cbn [snd trace].
  unfold listeners at 1. rewrite omap_app. fold (listeners (trace w) (fresh w) e).
  rewrite listeners_none; [reflexivity|].
  intros h' e' l Hin. apply Hh in Hin. lia.
Qed.

(** * Properties of the public contract *)

(** ** Sending after a disconnect *)

(** C1, as stated, fails: on an adapter that was connected (handle 0) and
    then disconnected, [send('e', 1)] still calls [emit('e', 1)] on the
    handle, because [disconnect] leaves the [socket] field set. *)
Lemma send_after_disconnect_reaches_emit :
  let w0 := exec (connect None) (constructor (Some "http://host/") None) in
  let w1 := exec disconnect w0 in
  socket (this w0) = Some 0 ∧
  since w1 (exec (send "e" (Num 1)) w1) = [Eemit 0 "e" (Num 1)] ∧
  since w1 (exec (send "e" (Num 1)) w1) ≠ [].
Proof. vm_compute. repeat split. discriminate. Qed.

(** C1, amended: [disconnect()] closes the handle but keeps it stored, so a
    [send(e, data)] that follows forwards exactly one [emit(e, data)] to
    that handle and does nothing else; [send] performs no action only
    while no handle is stored, that is before the first [connect]. *)
Theorem send_after_disconnect_forwards (w : World) (h : handle)
    (event : string) (data : value) :
  socket (this w) = Some h →
  let w1 := exec disconnect w in
  socket (this w1) = Some h ∧
  since w w1 = [Edisconnect h] ∧
  send event data w1 =
    (Normal (), mkWorld (this w1) (fresh w1) (trace w1 ++ [Eemit h event data])) ∧
  (∀ w', socket (this w') = None → send event data w' = (Normal (), w')).
Proof.
  intros Hs w1. subst w1. unfold exec. rewrite disconnect_eq, Hs. cbn [snd].
  split; [|split; [|split]].
  - cbn. exact Hs.
  - by apply since_app.
  - rewrite send_eq. cbn. rewrite Hs. reflexivity.
  - intros w' Hn. rewrite send_eq, Hn. reflexivity.
Qed.

Lemma send_after_disconnect_forwards_witness :
  let w := exec (connect (Some "abc")) (constructor None None) in
  socket (this w) = Some 0 ∧
  send "chat" (Str "hi") (exec disconnect w) =
    (Normal (),
     mkWorld (this (exec disconnect w)) (fresh (exec disconnect w))
             (trace (exec disconnect w) ++ [Eemit 0 "chat" (Str "hi")])).
Proof.
  intros w. split; [reflexivity|].
  apply (send_after_disconnect_forwards w 0 "chat" (Str "hi")). reflexivity.
Defined.

(** ** The URL of a connection *)

(** C2, as stated, fails for the empty token, which is not [null]:
    [connect('')] on base URL [http://host/] opens [http://host/], not
    [http://host/?token=]. *)
Lemma connect_empty_token_opens_base_url :
  let w := constructor (Some "http://host/") None in
  since w (exec (connect (Some "")) w) = Eio "http://host/" ∅ 0 :: wiring 0 ∧
  "http://host/" ≠ appendTokenToURL "http://host/" "".
Proof. vm_compute. split; [reflexivity | discriminate]. Qed.

(** C2, amended: for every token [t] that is neither [null] nor the empty
    string, [connect(t)] opens the connection with the stored URL followed
    by [&token=t] when that URL contains a [?] and by [?token=t] otherwise;
    [connect('abc')] on [http://host/] opens [http://host/?token=abc] and on
    [http://host/?x=1] opens [http://host/?x=1&token=abc]. *)
Theorem connect_appends_token (w : World) (t : string) :
  t ≠ "" →
  let u := url (this w) in
  let u' := u +:+ (if includes u "?" then "&" else "?") +:+ "token=" +:+ t in
  connect (Some t) w =
    (Normal (),
     mkWorld (mkFlow u' (options (this w)) (Some (fresh w))
                     (eventListeners (this w)) (Some t))
             (S (fresh w))
             (trace w ++ Eio u' (options (this w)) (fresh w) :: wiring (fresh w))) ∧
  (includes u "?" = true ↔ ∃ a b, u = a +:+ "?" +:+ b) ∧
  (∀ o, since (constructor (Some "http://host/") o)
              (exec (connect (Some "abc")) (constructor (Some "http://host/") o))
        = Eio "http://host/?token=abc" (default ∅ o) 0 :: wiring 0) ∧
  (∀ o, since (constructor (Some "http://host/?x=1") o)
              (exec (connect (Some "abc")) (constructor (Some "http://host/?x=1") o))
        = Eio "http://host/?x=1&token=abc" (default ∅ o) 0 :: wiring 0).
Proof.
  intros Ht u u'. split; [|split; [|split]].
  - rewrite connect_eq. unfold effective_url, stored_token.
    apply truthy_Some in Ht. rewrite Ht. reflexivity.
  - apply includes_spec.
  - intros o. apply since_app. unfold exec. rewrite connect_eq. reflexivity.
  - intros o. apply since_app. unfold exec. rewrite connect_eq. reflexivity.
Qed.

Lemma connect_appends_token_witness :
  "abc" ≠ "" ∧
  connect (Some "abc") (constructor (Some "http://host/?x=1") None) =
    (Normal (),
     mkWorld (mkFlow "http://host/?x=1&token=abc" ∅ (Some 0)
                     {[ "connect" := []; "disconnect" := []; "error" := [] ]}
                     (Some "abc"))
             1 (Eio "http://host/?x=1&token=abc" ∅ 0 :: wiring 0)).
Proof.
  split; [discriminate|].
  apply (connect_appends_token (constructor (Some "http://host/?x=1") None) "abc").
  discriminate.
Defined.

(** ** Lifecycle callbacks *)

Lemma times_called_map cb args l :
  times_called cb (map (λ c, Ecall c args) l) = count_occ callback_eq_dec l cb.
Proof.
  unfold times_called. induction l as [|c l IH]; [reflexivity|].
  cbn [map List.filter count_occ].
  destruct (callback_eq_dec c cb) as [->|Hne].
  - rewrite bool_decide_eq_true_2 by reflexivity. cbn [length]. by rewrite IH.
  - rewrite bool_decide_eq_false_2 by exact Hne. exact IH.
Qed.

(** When no callback raises, all are called and the loop ends normally. *)
Lemma called_all (l : list callback) :
  Forall (λ cb, raises cb = None) l → called l = l ∧ outcome l = Normal ().
Proof.
  induction 1 as [|cb l Hcb _ [IH1 IH2]]; [done|].
  cbn [called outcome]. by rewrite Hcb, IH1, IH2.
Qed.

(** The callbacks called are the first of the sequence, in its order. *)
Lemma called_prefix (l : list callback) : ∃ rest, l = called l ++ rest.
Proof.
  induction l as [|cb l [rest IH]]; [by exists []|]. cbn [called].
  destruct (raises cb).
  - by exists l.
  - exists rest. cbn. by rewrite <- IH.
Qed.

Lemma notify_wired_connect tok w0 w args l :
  handles_ok w0 →
  trace w = trace (exec (connect tok) w0) →
  eventListeners (this w) !! "connect" = Some l →
  notify (fresh w0) "connect" args w =
  (outcome l,
   mkWorld (this w) (fresh w)
           (trace w ++ Elog "Connected to server"
                       :: map (λ cb, Ecall cb []) (called l))).
Proof.
  intros Hok Htr Hl. unfold notify, mbind, M_bind, history.
  rewrite Htr, listeners_after_connect by exact Hok.
  unfold wiring, listeners. cbn [omap list_omap String.eqb Ascii.eqb Bool.eqb andb].
  rewrite Nat.eqb_refl. cbn [andb forEach invoke].
  unfold handleConnect, mbind, M_bind. unfold perform at 1.
  rewrite triggerEvent_eq. cbn [this fresh trace].
  rewrite (get_own _ _ _ Hl). unfold mret, M_ret.
  rewrite <- app_assoc, <- ?Htr. by destruct (outcome l) as [[]|].
Qed.

(** C3, as stated, fails when a registered callback raises: [forEach] ends
    there and the callbacks registered after it are not called. With a
    raising callback and then callback 2 registered for [connect], the
    connect event calls the first and never callback 2. *)
Lemma raising_callback_ends_connect_event :
  let boom := mkCallback 1 (Some (Str "boom")) in
  let w := run [Connect None; On "connect" boom; On "connect" 2]
               (constructor None None) in
  eventListeners (this w) !! "connect" = Some [boom; named 2] ∧
  notify 0 "connect" [] w =
    (Throw (Thrown (Str "boom")),
     mkWorld (this w) (fresh w)
             (trace w ++ [Elog "Connected to server"; Ecall boom []])) ∧
  times_called 2 (since w (exec (notify 0 "connect" []) w)) = 0.
Proof. vm_compute. repeat split. Qed.

(** C3, amended: on an adapter with any history, after [connect] and any
    sequence of [on('connect', cb)] registrations, a connect event of the
    library calls the registered callbacks (those already in the registry,
    then the new ones) in registration order, with no arguments, once per
    registration, up to and including the first one that raises, whose
    exception ends the delivery; when none raises, every registered
    callback is called and the delivery completes normally. On a new
    adapter the registered callbacks are exactly the ones of the
    sequence. *)
Theorem connect_event_calls_registered
    (u : option string) (o : option (gmap string value)) (acts : list action)
    (tok : option string) (cbs : list callback) (args : list value) :
  let w := run acts (constructor u o) in
  let regs := (eventListeners (this w) !!! "connect") ++ cbs in
  let w1 := run (Connect tok :: map (On "connect") cbs) w in
  notify (fresh w) "connect" args w1 =
    (outcome regs,
     mkWorld (this w1) (fresh w1)
             (trace w1 ++ Elog "Connected to server"
                          :: map (λ cb, Ecall cb []) (called regs))) ∧
  (∀ cb, times_called cb (since w1 (exec (notify (fresh w) "connect" args) w1))
         = count_occ callback_eq_dec (called regs) cb) ∧
  (∃ rest, regs = called regs ++ rest) ∧
  (Forall (λ cb, raises cb = None) regs →
   called regs = regs ∧ outcome regs = Normal ()) ∧
  eventListeners (this (run (map (On "connect") cbs) (constructor u o))) !! "connect"
    = Some cbs.
Proof.
  intros w regs w1.
  pose proof (reachable_handles_ok u o acts) as Hok. fold w in Hok.
  destruct (reachable_registered u o acts "connect") as [l0 Hl0];
    [unfold lifecycle; set_solver|]. fold w in Hl0.
  assert (regs = l0 ++ cbs) as Hregs.
  { unfold regs. by rewrite lookup_total_alt, Hl0. }
  assert (w1 = mkWorld
            (set_eventListeners (<["connect" := l0 ++ cbs]> (eventListeners (this w)))
                                (this (exec (connect tok) w)))
            (S (fresh w)) (trace (exec (connect tok) w))) as Hw1.
  { unfold w1. rewrite run_cons. cbn [step].
    rewrite (run_on_many _ _ _ l0); unfold exec; rewrite connect_eq; cbn; done. }
  assert (notify (fresh w) "connect" args w1 =
    (outcome regs,
     mkWorld (this w1) (fresh w1)
             (trace w1 ++ Elog "Connected to server"
                          :: map (λ cb, Ecall cb []) (called regs)))) as Hn.
  { rewrite Hregs. apply (notify_wired_connect tok); [exact Hok | by rewrite Hw1 |].
    rewrite Hw1. cbn. apply lookup_insert_eq. }
  split; [exact Hn|]. split; [|split; [|split]].
  - intros cb. unfold exec. rewrite Hn. cbn [snd].
    rewrite (since_app _ _ (Elog "Connected to server"
                            :: map (λ c, Ecall c []) (called regs)))
      by reflexivity.
    unfold times_called. cbn [List.filter]. apply times_called_map.
  - apply called_prefix.
  - apply called_all.
  - rewrite (run_on_many _ _ _ []) by reflexivity.
    cbn. apply lookup_insert_eq.
Qed.

Lemma connect_event_calls_registered_witness :
  let w1 := run (Connect None :: map (On "connect") [named 1; named 2])
                (constructor None None) in
  Forall (λ cb, raises cb = None) [named 1; named 2] ∧
  notify 0 "connect" [] w1 =
    (Normal (),
     mkWorld (this w1) (fresh w1)
             (trace w1 ++ [Elog "Connected to server";
                           Ecall (named 1) []; Ecall (named 2) []])).
Proof.
  intros w1.
  assert (Forall (λ cb, raises cb = None) [named 1; named 2]) as Hall
    by (repeat constructor).
  split; [exact Hall|].
  pose proof (connect_event_calls_registered None None [] None
                [named 1; named 2] []) as (Hn & _ & _ & Hq & _).
  destruct (Hq Hall) as [Hc Ho].
  etransitivity; [exact Hn|].
  cbn zeta. rewrite Hc, Ho. reflexivity.
Defined.

(** ** Removing a callback *)

Lemma unregistered_this e cb w w' :
  eventListeners (this w') = eventListeners (this w) →
  unregistered e cb w → unregistered e cb w'.
Proof. unfold unregistered. by intros ->. Qed.

(** Only [on(e, cb)] itself can bring [cb] back. *)
Lemma step_unregistered e cb a w :
  a ≠ On e cb → unregistered e cb w → unregistered e cb (exec (step a) w).
Proof.
  intros Ha Hun.
  destruct a as [tok| |e' d|e' c|e' c|e' c|o|h e' args|t|lw]; unfold exec; cbn [step].
  - rewrite connect_eq. exact Hun.
  - rewrite disconnect_eq. cbn [snd]. destruct (socket (this w)); [|exact Hun].
    intros l. cbn. rewrite lookup_fmap.
    destruct (eventListeners (this w) !! e); cbn; [|discriminate].
    intros [= <-]. apply not_elem_of_nil.
  - rewrite send_eq. cbn [snd]. destruct (socket (this w)); exact Hun.
  - rewrite receive_eq. cbn [snd]. destruct (socket (this w)); exact Hun.
  - rewrite on_eq. unfold get.
    destruct (eventListeners (this w) !! e') as [l'|] eqn:El';
      [|case_bool_decide; exact Hun].
    intros l. cbn. destruct (decide (e' = e)) as [->|Hne].
    + rewrite lookup_insert_eq. intros [= <-].
      rewrite elem_of_app, list_elem_of_singleton.
      intros [Hin| ->]; [by apply (Hun l') | by apply Ha].
    + rewrite lookup_insert_ne by exact Hne. apply Hun.
  - rewrite off_eq. unfold get.
    destruct (eventListeners (this w) !! e') as [l'|] eqn:El';
      [|case_bool_decide; exact Hun].
    intros l. cbn. destruct (decide (e' = e)) as [->|Hne].
    + rewrite lookup_insert_eq. intros [= <-].
      rewrite list_elem_of_filter. intros [_ Hin]. by apply (Hun l').
    + rewrite lookup_insert_ne by exact Hne. apply Hun.
  - rewrite setOptions_eq. destruct (socket (this w)); [|exact Hun].
    rewrite connect_eq. exact Hun.
  - eapply unregistered_this; [|exact Hun].
    destruct (quiet_notify h e' args w) as (Ht & _). unfold exec in Ht.
    by rewrite Ht.
  - rewrite fire_eq, connect_eq. exact Hun.
  - rewrite libraryWrites_eq. cbn [snd]. destruct (socket (this w)); exact Hun.
Qed.

Lemma run_unregistered e cb acts w :
  On e cb ∉ acts → unregistered e cb w → unregistered e cb (run acts w).
Proof.
  revert w. induction acts as [|a acts IH]; intros w Hnot Hun; [exact Hun|].
  rewrite run_cons. apply not_elem_of_cons in Hnot as [Hne Hnot].
  apply IH; [exact Hnot|]. apply step_unregistered; [congruence | exact Hun].
Qed.

Lemma filter_repeat_ne (cb : callback) n :
  filter (λ c, c ≠ cb) (repeat cb n) = [].
Proof.
  induction n as [|n IH]; [reflexivity|]. cbn [repeat].
  rewrite filter_cons_False by (intros H; by apply H). exact IH.
Qed.

Lemma filter_absent (cb : callback) (l : list callback) :
  cb ∉ l → filter (λ c, c ≠ cb) l = l.
Proof.
  induction l as [|c l IH]; intros Hnot; [reflexivity|].
  apply not_elem_of_cons in Hnot as [Hne Hnot].
  rewrite filter_cons_True by congruence. by rewrite IH.
Qed.

Lemma map_repeat {A B} (f : A → B) x n : map f (repeat x n) = repeat (f x) n.
Proof. induction n as [|n IH]; [reflexivity|]. cbn. by rewrite IH. Qed.

(** C4: for a lifecycle event name [e], [off(e, cb)] after any number [n]
    of [on(e, cb)] registrations leaves the sequence of [e] without any
    occurrence of [cb] and with the other callbacks as they were, so that
    no later triggering of [e] calls [cb], as long as [cb] is not
    registered again; [off] changes nothing when the event name has no
    sequence in the registry or when [cb] is not in the sequence. *)
Theorem off_removes_every_occurrence
    (u : option string) (o : option (gmap string value)) (acts : list action)
    (e : string) (cb : callback) (n : nat) :
  e ∈ lifecycle →
  let w := run acts (constructor u o) in
  let l := eventListeners (this w) !!! e in
  let w1 := run (repeat (On e cb) n) w in
  let w2 := exec (off e cb) w1 in
  off e cb w1 = (Normal (), w2) ∧
  eventListeners (this w1) !! e = Some (l ++ repeat cb n) ∧
  eventListeners (this w2) !! e = Some (filter (λ c, c ≠ cb) l) ∧
  (cb ∉ filter (λ c, c ≠ cb) l) ∧
  (∀ later args,
     On e cb ∉ later →
     let w3 := run later w2 in
     times_called cb (since w3 (exec (triggerEvent e args) w3)) = 0) ∧
  (∀ e', e' ∉ lifecycle → exec (off e' cb) w = w) ∧
  (cb ∉ l → off e cb w = (Normal (), w)).
Proof.
  intros He w l w1 w2.
  destruct (reachable_registered u o acts e He) as [l0 Hl0]. fold w in Hl0.
  assert (l = l0) as -> by (unfold l; by rewrite lookup_total_alt, Hl0).
  assert (w1 = mkWorld
            (set_eventListeners (<[e := l0 ++ repeat cb n]> (eventListeners (this w)))
                                (this w))
            (fresh w) (trace w)) as Hw1.
  { unfold w1. rewrite <- (map_repeat (On e)). by apply run_on_many. }
  assert (eventListeners (this w1) !! e = Some (l0 ++ repeat cb n)) as Hl1.
  { rewrite Hw1. cbn. apply lookup_insert_eq. }
  assert (off e cb w1 = (Normal (), w2)) as Hoff.
  { unfold w2, exec. rewrite off_eq, (get_own _ _ _ Hl1). reflexivity. }
  assert (eventListeners (this w2) !! e = Some (filter (λ c, c ≠ cb) l0)) as Hl2.
  { unfold w2, exec. rewrite off_eq, (get_own _ _ _ Hl1). cbn.
    rewrite lookup_insert_eq, filter_app, filter_repeat_ne, app_nil_r. reflexivity. }
  assert (cb ∉ filter (λ c, c ≠ cb) l0) as Hnot.
  { rewrite list_elem_of_filter. intros [Hne _]. by apply Hne. }
  split; [exact Hoff|]. split; [exact Hl1|]. split; [exact Hl2|].
  split; [exact Hnot|]. split; [|split].
  - intros later args Hlater w3.
    assert (unregistered e cb w3) as Hun.
    { apply run_unregistered; [exact Hlater|].
      intros l'. rewrite Hl2. by intros [= <-]. }
    unfold exec. rewrite triggerEvent_eq. unfold get.
    destruct (eventListeners (this w3) !! e) as [l3|] eqn:El3.
    + cbn [snd].
      rewrite (since_app _ _ (map (λ c, Ecall c args) (called l3))) by reflexivity.
      rewrite times_called_map. apply count_occ_not_In.
      rewrite <- list_elem_of_In. intros Hin. apply (Hun l3 El3).
      destruct (called_prefix l3) as [rest Hrest]. rewrite Hrest.
      apply elem_of_app. by left.
    + case_bool_decide; cbn [snd]; unfold since; by rewrite drop_all.
  - intros e' He'. unfold exec. rewrite off_eq. unfold get.
    pose proof (reachable_unregistered u o acts e' He') as Hn. fold w in Hn.
    rewrite Hn. case_bool_decide; reflexivity.
  - intros Hl. rewrite off_eq, (get_own _ _ _ Hl0).
    rewrite filter_absent by exact Hl. rewrite insert_id by exact Hl0.
    destruct w as [[]]; reflexivity.
Qed.

Lemma off_removes_every_occurrence_witness :
  "error" ∈ lifecycle ∧
  let w := run [On "error" 7; On "error" 8] (constructor None None) in
  eventListeners (this (exec (off "error" 7) (run (repeat (On "error" 7) 2) w)))
    !! "error" = Some [named 8].
Proof.
  split; [unfold lifecycle; set_solver|].
  intros w.
  refine (proj1 (proj2 (proj2
    (off_removes_every_occurrence None None [On "error" 7; On "error" 8]
       "error" 7 2 _)))).
  unfold lifecycle; set_solver.
Defined.

(** ** Options *)

Lemma connect_since tok w :
  since w (exec (connect tok) w) =
  Eio (effective_url (this w) tok) (options (this w)) (fresh w) :: wiring (fresh w).
Proof. apply since_app. unfold exec. by rewrite connect_eq. Qed.

Lemma setOptions_options opts w :
  options (this (exec (setOptions opts) w)) = opts ∪ options (this w).
Proof.
  unfold exec. rewrite setOptions_eq.
  destruct (socket (this w)); [by rewrite connect_eq | reflexivity].
Qed.

(** C5, as stated, fails on a connected adapter: the mapping handed to
    [io] is [this.options] itself, and the library writes entries of its
    own into it (here those of the default URL), so after
    [setOptions({a:1})] and [setOptions({b:2})] the stored mapping is not
    [{a:1, b:2}]. *)
Lemma setOptions_connected_keeps_library_entries :
  let entries : gmap string value :=
    {[ "path" := Str "/socket.io"; "hostname" := Str "localhost";
       "secure" := Bool false; "port" := Str "3000" ]} in
  let w := run [ Connect None; LibraryWrites entries;
                 SetOptions {[ "a" := Num 1 ]}; LibraryWrites entries;
                 SetOptions {[ "b" := Num 2 ]}; LibraryWrites entries ]
               (constructor None None) in
  options (this w) =
    {[ "a" := Num 1; "b" := Num 2;
       "path" := Str "/socket.io"; "hostname" := Str "localhost";
       "secure" := Bool false; "port" := Str "3000" ]} ∧
  options (this w) ≠ {[ "a" := Num 1; "b" := Num 2 ]}.
Proof.
  intros entries w. split; [vm_compute; reflexivity|].
  intros H. apply (f_equal (λ m, m !! "path")) in H.
  vm_compute in H. discriminate.
Qed.

(** C5, amended: [setOptions] replaces the stored option mapping by the
    shallow merge of its argument over it (a key of the argument wins),
    and that merged mapping is the one handed to [io] on reconnect.
    Without a handle it calls nothing and the merged mapping is what is
    stored, so [setOptions({a:1})] then [setOptions({b:2})] on a new
    adapter leaves [{a:1, b:2}]; with a handle stored, one call closes
    that handle once and then opens one connection, as [connect] does when
    called with the stored token, and the stored mapping is the merged one
    with the entries the library writes into it on top. *)
Theorem setOptions_merges_and_reconnects (opts : gmap string value) (w : World) :
  let w' := exec (setOptions opts) w in
  let merged := opts ∪ options (this w) in
  (setOptions opts w).1 = Normal () ∧
  (∀ k, merged !! k =
        match opts !! k with
        | Some v => Some v
        | None => options (this w) !! k
        end) ∧
  (∀ u, options (this (run [SetOptions {[ "a" := Num 1 ]};
                            SetOptions {[ "b" := Num 2 ]}] (constructor u None)))
        = {[ "a" := Num 1; "b" := Num 2 ]}) ∧
  match socket (this w) with
  | Some h =>
      let w_closed :=
        mkWorld (set_options merged (this w))
                (fresh w) (trace w ++ [Edisconnect h]) in
      setOptions opts w = connect (token (this w)) w_closed ∧
      since w w' =
        Edisconnect h
        :: Eio (effective_url (this w) (token (this w))) merged (fresh w)
        :: wiring (fresh w) ∧
      (∀ entries, options (this (exec (libraryWrites entries) w'))
                  = entries ∪ merged)
  | None => options (this w') = merged ∧ since w w' = []
  end.
Proof.
  intros w' merged. subst w' merged.
  split; [|split; [|split]].
  - rewrite setOptions_eq.
    destruct (socket (this w)); [by rewrite connect_eq | reflexivity].
  - intros k. rewrite lookup_union.
    destruct (opts !! k), (options (this w) !! k); reflexivity.
  - intros u. rewrite !run_cons. cbn [run fold_left step].
    rewrite !setOptions_options. vm_compute. reflexivity.
  - unfold exec. rewrite setOptions_eq. destruct (socket (this w)) as [h|].
    + split; [reflexivity|]. rewrite connect_eq. cbn [snd]. split.
      * apply since_app. cbn. rewrite <- app_assoc. reflexivity.
      * intros entries. by rewrite libraryWrites_eq.
    + cbn [snd]. split; [reflexivity|]. apply since_app. cbn. by rewrite app_nil_r.
Qed.

(** ** Connection errors *)

Lemma listeners_app tr1 tr2 h e :
  listeners (tr1 ++ tr2) h e = listeners tr1 h e ++ listeners tr2 h e.
Proof. apply omap_app. Qed.

Lemma listeners_passive es h e : forallb passive es = true → listeners es h e = [].
Proof.
  intros Hp. apply listeners_none. intros h' e' l Hin.
  rewrite forallb_forall in Hp. apply list_elem_of_In, Hp in Hin. discriminate.
Qed.

Lemma listeners_wiring_other h h' e : h' ≠ h → listeners (wiring h') h e = [].
Proof.
  intros Hne. apply listeners_none. intros h0 e0 l Hin.
  unfold wiring in Hin. rewrite !elem_of_cons in Hin.
  destruct Hin as [Hin|[Hin|[Hin|[Hin|Hin]]]];
    try (injection Hin as -> _ _; exact Hne).
  by apply elem_of_nil in Hin.
Qed.

Lemma arrows_wiring h h' e :
  List.filter is_arrow (listeners (wiring h) h' e) = listeners (wiring h) h' e.
Proof.
  unfold wiring, listeners. cbn [omap list_omap].
  repeat match goal with
         | |- context [if ?b then _ else _] => destruct b
         end; reflexivity.
Qed.

Lemma wired_extend w w' es :
  fresh w' = fresh w →
  trace w' = trace w ++ es →
  (∀ h e, List.filter is_arrow (listeners es h e) = []) →
  wired w → wired w'.
Proof.
  intros Hf Ht Hes Hw h e Hh. rewrite Hf in Hh.
  rewrite Ht, listeners_app, List.filter_app, Hes, app_nil_r. by apply Hw.
Qed.

Lemma wired_connect tok w : handles_ok w → wired w → wired (exec (connect tok) w).
Proof.
  intros [_ Hok] Hw h e Hh. unfold exec in *. rewrite connect_eq in *.
  cbn [snd trace fresh] in *.
  rewrite listeners_app, List.filter_app.
  change (listeners (?x :: wiring (fresh w)) h e)
    with (listeners (wiring (fresh w)) h e).
  destruct (decide (h = fresh w)) as [->|Hne].
  - rewrite listeners_none; [apply arrows_wiring|].
    intros h' e' l Hin. apply Hok in Hin. lia.
  - rewrite (listeners_wiring_other h (fresh w)) by congruence.
    rewrite app_nil_r. apply Hw. lia.
Qed.

Lemma step_wired a w : handles_ok w → wired w → wired (exec (step a) w).
Proof.
  intros Hok Hw.
  destruct a as [tok| |e d|e cb|e cb|e cb|o|h e args|t|lw]; cbn [step].
  - by apply wired_connect.
  - unfold exec. rewrite disconnect_eq. cbn [snd].
    destruct (socket (this w)) as [h|]; [|exact Hw].
    by apply (wired_extend w _ [Edisconnect h]).
  - unfold exec. rewrite send_eq. cbn [snd].
    destruct (socket (this w)) as [h|]; [|exact Hw].
    by apply (wired_extend w _ [Eemit h e d]).
  - unfold exec. rewrite receive_eq. cbn [snd].
    destruct (socket (this w)) as [h|]; [|exact Hw].
    apply (wired_extend w _ [Eon h e (Fn cb)]); try done.
    intros h' e'. unfold listeners. cbn.
    destruct (Nat.eqb h h' && String.eqb e e'); reflexivity.
  - unfold exec. rewrite on_eq.
    destruct (get (eventListeners (this w)) e); exact Hw.
  - unfold exec. rewrite off_eq.
    destruct (get (eventListeners (this w)) e); exact Hw.
  - unfold exec. rewrite setOptions_eq.
    destruct (socket (this w)) as [h|] eqn:Es; [|exact Hw].
    apply wired_connect.
    + destruct Hok as [Hs Hh]. split; cbn.
      * rewrite Es. intros h' [= <-]. by apply Hs.
      * intros h' ev l Hin. apply elem_of_app in Hin as [Hin|Hin]; [eauto|].
        apply list_elem_of_singleton in Hin. discriminate.
    + by apply (wired_extend w _ [Edisconnect h]).
  - destruct (quiet_notify h e args w) as (_ & Hf & es & Ht & Hp).
    apply (wired_extend w _ es); try done.
    intros h' e'. by rewrite listeners_passive.
  - unfold exec. rewrite fire_eq. by apply wired_connect.
  - unfold exec. rewrite libraryWrites_eq. cbn [snd].
    destruct (socket (this w)); exact Hw.
Qed.

Lemma reachable_wired u o acts : wired (run acts (constructor u o)).
Proof.
  assert (∀ w, handles_ok w → wired w → wired (run acts w)) as Hrun.
  { induction acts as [|a acts IH]; intros w Hok Hw; [exact Hw|].
    rewrite run_cons. apply IH; [by apply step_handles_ok | by apply step_wired]. }
  apply Hrun.
  - apply (reachable_handles_ok u o []).
  - intros h e Hh. cbn in Hh. lia.
Qed.

Lemma forEach_invoke_connect_error args ls w :
  (∀ l, l ∈ ls → is_arrow l = true → l = Arrow OnConnectError) →
  forEach ls (invoke args) w =
  (Normal (),
   mkWorld (this w) (fresh w) (trace w ++ flat_map (connect_error_effects args) ls)).
Proof.
  revert w. induction ls as [|l ls IH]; intros w Hls; cbn [forEach flat_map].
  - unfold mret, M_ret. rewrite app_nil_r. by destruct w.
  - unfold mbind, M_bind.
    assert (invoke args l w =
            (Normal (), mkWorld (this w) (fresh w)
                                (trace w ++ connect_error_effects args l))) as ->.
    { destruct l as [a|cb].
      - rewrite (Hls (Arrow a)) by (reflexivity || left).
        cbn [invoke]. apply handleConnectError_eq.
      - reflexivity. }
    rewrite IH by (intros l' Hin; apply Hls; by right).
    cbn [this fresh trace]. by rewrite <- app_assoc.
Qed.

Lemma timers_connect_error_effects args ls :
  List.filter is_timer (flat_map (connect_error_effects args) ls) =
  map (λ _, EsetTimeout Reconnect 3000) (List.filter is_arrow ls).
Proof.
  induction ls as [|[a|cb] ls IH]; [reflexivity| |]; cbn; by rewrite IH.
Qed.

Lemma step_token a w :
  token (this (exec (step a) w)) =
  match a with
  | Connect t => if truthy t then t else token (this w)
  | _ => token (this w)
  end.
Proof.
  destruct a as [tok| |e d|e cb|e cb|e cb|o|h e args|t|lw]; unfold exec; cbn [step].
  - by rewrite connect_eq.
  - rewrite disconnect_eq. cbn [snd]. by destruct (socket (this w)).
  - rewrite send_eq. cbn [snd]. by destruct (socket (this w)).
  - rewrite receive_eq. cbn [snd]. by destruct (socket (this w)).
  - rewrite on_eq. by destruct (get (eventListeners (this w)) e).
  - rewrite off_eq. by destruct (get (eventListeners (this w)) e).
  - rewrite setOptions_eq. destruct (socket (this w)); [|reflexivity].
    rewrite connect_eq. cbn. unfold stored_token. cbn.
    by destruct (truthy (token (this w))).
  - destruct (quiet_notify h e args w) as (Ht & _). unfold exec in Ht. by rewrite Ht.
  - rewrite fire_eq, connect_eq. cbn. unfold stored_token.
    by destruct (truthy (token (this w))).
  - rewrite libraryWrites_eq. cbn [snd]. by destruct (socket (this w)).
Qed.

(** C6: whenever, in any history, a connect-error notification arrives on
    a handle the adapter has opened, the adapter sets exactly one timer, of
    3000 ms, and changes no field; the only callbacks called are those
    handed to the library for that event by [receive], never one of the
    registry. When the timer fires, its closure calls [connect] with the
    token stored at that moment; the stored token only changes when
    [connect] is given a token that is neither [null] nor empty. *)
Theorem connect_error_schedules_reconnect
    (u : option string) (o : option (gmap string value)) (acts : list action)
    (h : handle) (err : value) (rest : list value) :
  let w := run acts (constructor u o) in
  h < fresh w →
  let w' := exec (notify h "connect_error" (err :: rest)) w in
  notify h "connect_error" (err :: rest) w = (Normal (), w') ∧
  this w' = this w ∧
  List.filter is_timer (since w w') = [EsetTimeout Reconnect 3000] ∧
  (∀ cb args, Ecall cb args ∈ since w w' →
              Eon h "connect_error" (Fn cb) ∈ trace w) ∧
  (∀ w3, handleConnectError err w3 =
         (Normal (),
          mkWorld (this w3) (fresh w3)
                  (trace w3 ++ [ Eerror "Connection error, attempting to reconnect:" err;
                                 EsetTimeout Reconnect 3000 ]))) ∧
  (∀ w3, fire Reconnect w3 = connect (token (this w3)) w3) ∧
  (∀ a w3, token (this (exec (step a) w3)) =
           match a with
           | Connect t => if truthy t then t else token (this w3)
           | _ => token (this w3)
           end).
Proof.
  intros w Hh w'.
  pose proof (reachable_wired u o acts h "connect_error" Hh) as Hw. fold w in Hw.
  set (ls := listeners (trace w) h "connect_error") in *.
  assert (List.filter is_arrow ls = [Arrow OnConnectError]) as Harrows.
  { rewrite Hw. unfold wiring, listeners.
    cbn [omap list_omap String.eqb Ascii.eqb Bool.eqb andb].
    rewrite Nat.eqb_refl. reflexivity. }
  assert (notify h "connect_error" (err :: rest) w =
          (Normal (),
           mkWorld (this w) (fresh w)
                   (trace w ++ flat_map (connect_error_effects (err :: rest)) ls)))
    as Hn.
  { unfold notify, mbind, M_bind, history. fold ls.
    apply forEach_invoke_connect_error. intros l Hin Hl.
    assert (l ∈ List.filter is_arrow ls) as Hin'.
    { apply list_elem_of_In, List.filter_In. by rewrite <- list_elem_of_In. }
    rewrite Harrows in Hin'. by apply list_elem_of_singleton in Hin'. }
  assert (since w w' = flat_map (connect_error_effects (err :: rest)) ls) as Hs.
  { apply since_app. unfold w', exec. by rewrite Hn. }
  split; [|split; [|split; [|split; [|split; [|split]]]]].
  - unfold w', exec. by rewrite Hn.
  - unfold w', exec. by rewrite Hn.
  - rewrite Hs, timers_connect_error_effects, Harrows. reflexivity.
  - intros cb args. rewrite Hs. rewrite list_elem_of_In, in_flat_map.
    intros ([a|cb'] & Hin & Hc); cbn in Hc.
    + destruct Hc as [Hc|[Hc|[]]]; discriminate.
    + destruct Hc as [[= -> _]|[]].
      apply list_elem_of_In in Hin. unfold ls, listeners in Hin.
      apply list_elem_of_omap in Hin as (x & Hx & Hsome).
      destruct x as [| h' e' l | | | | | |]; try discriminate.
      destruct (Nat.eqb h' h && String.eqb e' "connect_error") eqn:Eb;
        [|discriminate].
      injection Hsome as ->.
      apply andb_prop in Eb as [->%Nat.eqb_eq ->%String.eqb_eq]. exact Hx.
  - intros w3. apply handleConnectError_eq.
  - intros w3. apply fire_eq.
  - intros a w3. apply step_token.
Qed.

Lemma connect_error_schedules_reconnect_witness :
  let w := run [Connect (Some "abc"); On "error" 4] (constructor None None) in
  0 < fresh w ∧
  since w (exec (notify 0 "connect_error" [Str "timeout"]) w) =
    [ Eerror "Connection error, attempting to reconnect:" (Str "timeout");
      EsetTimeout Reconnect 3000 ] ∧
  List.filter is_timer (since w (exec (notify 0 "connect_error" [Str "timeout"]) w))
    = [EsetTimeout Reconnect 3000].
Proof.
  intros w. split; [vm_compute; lia|]. split; [reflexivity|].
  refine (proj1 (proj2 (proj2
    (connect_error_schedules_reconnect None None
       [Connect (Some "abc"); On "error" 4] 0 (Str "timeout") [] _)))).
  vm_compute. lia.
Defined.

(** ** The keys of the registry *)

(** C7: in every history of an adapter (any sequence of [connect],
    [disconnect], [send], [receive], [on], [off], [setOptions],
    notifications and timers) the registry has exactly the keys [connect],
    [disconnect] and [error]; [on] with any other event name adds no key
    and leaves the adapter and the trace as they were. *)
Theorem registry_keys_fixed
    (u : option string) (o : option (gmap string value)) (acts : list action) :
  let w := run acts (constructor u o) in
  dom (eventListeners (this w)) = ({[ "connect"; "disconnect"; "error" ]} : gset string) ∧
  (∀ e cb, e ∉ ({[ "connect"; "disconnect"; "error" ]} : gset string) →
           exec (on e cb) w = w) ∧
  (∀ e cb, dom (eventListeners (this (exec (on e cb) w)))
           = ({[ "connect"; "disconnect"; "error" ]} : gset string)).
Proof.
  intros w. split; [|split].
  - apply reachable_dom.
  - intros e cb He. unfold exec. rewrite on_eq. unfold get.
    pose proof (reachable_unregistered u o acts e He) as Hn. fold w in Hn.
    rewrite Hn. case_bool_decide; reflexivity.
  - intros e cb. change (exec (on e cb) w) with (exec (step (On e cb)) w).
    rewrite step_dom. apply reachable_dom.
Qed.

Lemma registry_keys_fixed_witness :
  let w := run [Connect None; On "connect" 1; Disconnect] (constructor None None) in
  ("message" ∉ ({[ "connect"; "disconnect"; "error" ]} : gset string)) ∧
  exec (on "message" 2) w = w.
Proof.
  intros w.
  assert ("message" ∉ ({[ "connect"; "disconnect"; "error" ]} : gset string)) as Hm.
  { rewrite !not_elem_of_union, !not_elem_of_singleton. repeat split; discriminate. }
  split; [exact Hm|].
  exact (proj1 (proj2 (registry_keys_fixed None None
           [Connect None; On "connect" 1; Disconnect])) "message" 2 Hm).
Defined.

(** ** Completions *)

(** C8 fails on the code: [on('toString', cb)] and [off('toString', cb)]
    on a new adapter raise a [TypeError] to their caller. The guard
    [this.eventListeners[event]] finds [Object.prototype.toString], which
    is truthy and has neither [push] nor [filter]. *)
Theorem on_off_raise_for_inherited_name :
  on "toString" 1 (constructor None None) =
    (Throw (TypeError "this.eventListeners[event].push is not a function"),
     constructor None None) ∧
  off "toString" 1 (constructor None None) =
    (Throw (TypeError "this.eventListeners[event].filter is not a function"),
     constructor None None).
Proof. split; vm_compute; reflexivity. Qed.

(** ** The stored URL *)

Lemma effective_url_extends f tok : ∃ s, effective_url f tok = url f +:+ s.
Proof.
  unfold effective_url, appendTokenToURL.
  destruct tok as [t|]; [destruct (truthy (Some t))|]; eauto using append_nil_r, eq_sym.
Qed.

(** No method ever removes anything from the stored URL. *)
Lemma step_url_extends a w :
  ∃ s, url (this (exec (step a) w)) = url (this w) +:+ s.
Proof.
  assert (∃ s, url (this w) = url (this w) +:+ s) as Hsame
    by (exists ""; by rewrite append_nil_r).
  destruct a as [tok| |e d|e cb|e cb|e cb|o|h e args|t|lw]; unfold exec; cbn [step].
  - rewrite connect_eq. apply effective_url_extends.
  - rewrite disconnect_eq. cbn [snd]. by destruct (socket (this w)).
  - rewrite send_eq. cbn [snd]. by destruct (socket (this w)).
  - rewrite receive_eq. cbn [snd]. by destruct (socket (this w)).
  - rewrite on_eq. by destruct (get (eventListeners (this w)) e).
  - rewrite off_eq. by destruct (get (eventListeners (this w)) e).
  - rewrite setOptions_eq. destruct (socket (this w)); [|exact Hsame].
    rewrite connect_eq.
    apply (effective_url_extends (set_options (o ∪ options (this w)) (this w))).
  - destruct (quiet_notify h e args w) as (Ht & _). unfold exec in Ht. by rewrite Ht.
  - rewrite fire_eq, connect_eq. apply effective_url_extends.
  - rewrite libraryWrites_eq. cbn [snd]. by destruct (socket (this w)).
Qed.

Lemma run_url_extends acts w :
  ∃ s, url (this (run acts w)) = url (this w) +:+ s.
Proof.
  revert w. induction acts as [|a acts IH]; intros w.
  - exists "". by rewrite append_nil_r.
  - rewrite run_cons. destruct (IH (exec (step a) w)) as [s2 ->].
    destruct (step_url_extends a w) as [s1 ->].
    exists (s1 +:+ s2). by rewrite append_assoc.
Qed.

Lemma tokened_connect tok w : tokened w → tokened (exec (connect tok) w).
Proof.
  intros (_ & Ht & Hu). unfold exec. rewrite connect_eq. repeat split; cbn.
  - eauto.
  - unfold stored_token. by destruct (truthy tok) eqn:E.
  - destruct (effective_url_extends (this w) tok) as [s ->].
    by apply includes_append.
Qed.

Lemma step_tokened a w : tokened w → tokened (exec (step a) w).
Proof.
  intros Hw. pose proof Hw as (Hs & Ht & Hu).
  destruct a as [tok| |e d|e cb|e cb|e cb|o|h e args|t|lw]; cbn [step].
  - by apply tokened_connect.
  - unfold exec. rewrite disconnect_eq. cbn [snd].
    by destruct (socket (this w)).
  - unfold exec. rewrite send_eq. cbn [snd]. by destruct (socket (this w)).
  - unfold exec. rewrite receive_eq. cbn [snd]. by destruct (socket (this w)).
  - unfold exec. rewrite on_eq. by destruct (get (eventListeners (this w)) e).
  - unfold exec. rewrite off_eq. by destruct (get (eventListeners (this w)) e).
  - unfold exec. rewrite setOptions_eq. destruct (socket (this w)) as [h|] eqn:Es.
    + apply tokened_connect. repeat split; cbn; [by rewrite Es | done | done].
    + by destruct Hs.
  - destruct (quiet_notify h e args w) as (Hthis & _).
    unfold tokened. by rewrite Hthis.
  - unfold exec. rewrite fire_eq. by apply tokened_connect.
  - unfold exec. rewrite libraryWrites_eq. cbn [snd].
    destruct (socket (this w)) as [h|] eqn:Es; [|exact Hw].
    repeat split; cbn; [by rewrite Es | done | done].
Qed.

Lemma run_tokened acts w : tokened w → tokened (run acts w).
Proof.
  revert w. induction acts as [|a acts IH]; intros w Hw; [exact Hw|].
  rewrite run_cons. by apply IH, step_tokened.
Qed.

Lemma tokened_reconnect_url t w :
  t ≠ "" → includes (url (this w)) "?" = true →
  effective_url (this w) (Some t) = url (this w) +:+ "&token=" +:+ t.
Proof.
  intros Ht Hu. unfold effective_url, appendTokenToURL.
  apply truthy_Some in Ht. rewrite Ht, Hu. reflexivity.
Qed.

(** C9, as stated, fails for the empty token, which is not [null]: it
    overwrites nothing, and after [connect('abc')] a [connect('')] appends
    no further parameter. *)
Lemma connect_empty_token_appends_nothing :
  let w0 := constructor (Some "http://host/") None in
  let w1 := exec (connect (Some "abc")) w0 in
  url (this (exec (connect (Some "")) w0)) = "http://host/" ∧
  url (this w1) = "http://host/?token=abc" ∧
  url (this (exec (connect (Some "")) w1)) = "http://host/?token=abc" ∧
  url (this (exec (connect (Some "")) w1)) ≠ appendTokenToURL (url (this w1)) "".
Proof. vm_compute. repeat apply conj; try reflexivity. discriminate. Qed.

(** C9, amended: [connect] with a token [t] that is neither [null] nor
    empty overwrites the stored [url] with the token-extended URL, and no
    later call ever removes anything from it; from then on, in every
    history, every [connect] with such a token, and every automatic
    reconnect made by the timer of [handleConnectError] or by [setOptions]
    (which pass the stored token), appends a further [&token=<value>] to
    the stored URL and opens the connection with it. *)
Theorem connect_accumulates_tokens (w : World) (t : string) (acts : list action) :
  t ≠ "" →
  let w1 := exec (connect (Some t)) w in
  let w2 := run acts w1 in
  url (this w1) = appendTokenToURL (url (this w)) t ∧
  includes (url (this w1)) ("token=" +:+ t) = true ∧
  (∃ s, url (this w2) = url (this w1) +:+ s) ∧
  (∀ t2, t2 ≠ "" →
         url (this (exec (connect (Some t2)) w2)) = url (this w2) +:+ "&token=" +:+ t2 ∧
         since w2 (exec (connect (Some t2)) w2) =
           Eio (url (this w2) +:+ "&token=" +:+ t2) (options (this w2)) (fresh w2)
           :: wiring (fresh w2)) ∧
  (∃ t', token (this w2) = Some t' ∧ t' ≠ "" ∧
         url (this (exec (fire Reconnect) w2)) = url (this w2) +:+ "&token=" +:+ t' ∧
         ∀ opts, url (this (exec (setOptions opts) w2))
                 = url (this w2) +:+ "&token=" +:+ t').
Proof.
  intros Ht w1 w2.
  assert (url (this w1) = appendTokenToURL (url (this w)) t) as Hu1.
  { unfold w1, exec. rewrite connect_eq. cbn [snd this url]. unfold effective_url.
    apply truthy_Some in Ht. by rewrite Ht. }
  assert (tokened w1) as Hw1.
  { repeat split.
    - unfold w1, exec. rewrite connect_eq. cbn. eauto.
    - unfold w1, exec. rewrite connect_eq. cbn [snd this token].
      unfold stored_token. apply truthy_Some in Ht. by rewrite Ht.
    - rewrite Hu1. apply appendTokenToURL_includes. }
  pose proof (run_tokened acts w1 Hw1) as (Hs2 & Ht2 & Hu2). fold w2 in Hs2, Ht2, Hu2.
  split; [exact Hu1|]. split; [rewrite Hu1; apply appendTokenToURL_includes|].
  split; [apply run_url_extends|]. split.
  - intros t2 Ht2'. split.
    + unfold exec. rewrite connect_eq. cbn [snd this url].
      by apply tokened_reconnect_url.
    + rewrite connect_since. by rewrite tokened_reconnect_url.
  - destruct (token (this w2)) as [t'|] eqn:Et; [|discriminate].
    assert (t' ≠ "") as Hne by (by apply truthy_Some).
    exists t'. split; [reflexivity|]. split; [exact Hne|]. split.
    + unfold exec. rewrite fire_eq, connect_eq, Et. cbn [snd this url].
      by apply tokened_reconnect_url.
    + intros opts. unfold exec. rewrite setOptions_eq.
      destruct Hs2 as [h Hs2]. rewrite Hs2, connect_eq, Et. cbn [snd this url].
      by apply tokened_reconnect_url.
Qed.

Lemma connect_accumulates_tokens_witness :
  "abc" ≠ "" ∧
  let w1 := exec (connect (Some "abc")) (constructor (Some "http://host/") None) in
  url (this w1) = "http://host/?token=abc" ∧
  url (this (exec (fire Reconnect) w1)) = "http://host/?token=abc&token=abc".
Proof.
  split; [discriminate|]. intros w1. split.
  - refine (proj1 (connect_accumulates_tokens
                     (constructor (Some "http://host/") None) "abc" [] _)).
    discriminate.
  - reflexivity.
Defined.

(** ** The registry across reconnects *)

Lemma cleared_registry (r : gmap string (list callback)) :
  dom r = lifecycle →
  (λ _, []) <$> r
  = ({[ "connect" := []; "disconnect" := []; "error" := [] ]}
     : gmap string (list callback)).
Proof.
  intros Hdom. apply map_eq. intros k. rewrite lookup_fmap.
  destruct (decide (k ∈ lifecycle)) as [Hk|Hk].
  - assert (is_Some (r !! k)) as [l ->] by (apply elem_of_dom; by rewrite Hdom).
    unfold lifecycle in Hk. rewrite !elem_of_union, !elem_of_singleton in Hk.
    destruct Hk as [[->| ->]| ->]; reflexivity.
  - assert (r !! k = None) as -> by (apply not_elem_of_dom; by rewrite Hdom).
    unfold lifecycle in Hk.
    rewrite !not_elem_of_union, !not_elem_of_singleton in Hk.
    destruct Hk as [[H1 H2] H3].
    rewrite !lookup_insert_ne by congruence. by rewrite lookup_singleton_ne.
Qed.

(** C10: with a handle stored, [setOptions] closes the handle and
    reconnects and leaves the registry as it was, so every registered
    callback is still called when its event is triggered afterwards; an
    explicit [disconnect()] closes the handle and leaves the three registry
    sequences empty. *)
Theorem setOptions_keeps_registry
    (u : option string) (o : option (gmap string value)) (acts : list action)
    (opts : gmap string value) (h : handle) :
  let w := run acts (constructor u o) in
  socket (this w) = Some h →
  let ws := exec (setOptions opts) w in
  let wd := exec disconnect w in
  eventListeners (this ws) = eventListeners (this w) ∧
  since w ws =
    Edisconnect h
    :: Eio (effective_url (this w) (token (this w))) (opts ∪ options (this w)) (fresh w)
    :: wiring (fresh w) ∧
  (∀ e args, since ws (exec (triggerEvent e args) ws)
             = since w (exec (triggerEvent e args) w)) ∧
  eventListeners (this wd)
  = ({[ "connect" := []; "disconnect" := []; "error" := [] ]}
     : gmap string (list callback)) ∧
  since w wd = [Edisconnect h] ∧
  (∀ e args, since wd (exec (triggerEvent e args) wd) = []).
Proof.
  intros w Hs ws wd.
  assert (eventListeners (this ws) = eventListeners (this w)) as Hreg.
  { unfold ws, exec. by rewrite setOptions_eq, Hs, connect_eq. }
  assert (eventListeners (this wd)
          = ({[ "connect" := []; "disconnect" := []; "error" := [] ]}
             : gmap string (list callback))) as Hclr.
  { unfold wd, exec. rewrite disconnect_eq, Hs. cbn [snd this eventListeners set_eventListeners].
    apply cleared_registry, reachable_dom. }
  assert (∀ w0 e args,
            since w0 (exec (triggerEvent e args) w0) =
            match get (eventListeners (this w0)) e with
            | Own l => map (λ cb, Ecall cb args) (called l)
            | _ => []
            end) as Htrig.
  { intros w0 e args. apply since_app. unfold exec. rewrite triggerEvent_eq.
    destruct (get (eventListeners (this w0)) e); cbn; by rewrite ?app_nil_r. }
  split; [exact Hreg|]. split; [|split; [|split; [exact Hclr|split]]].
  - apply since_app. unfold ws, exec. rewrite setOptions_eq, Hs, connect_eq.
    cbn. by rewrite <- app_assoc.
  - intros e args. by rewrite !Htrig, Hreg.
  - apply since_app. unfold wd, exec. by rewrite disconnect_eq, Hs.
  - intros e args. rewrite Htrig, Hclr. unfold get.
    destruct (_ !! e) as [l|] eqn:El; [|by case_bool_decide].
    revert El. 
    destruct (decide (e = "connect")) as [->|H1]; [by intros [= <-]|].
    rewrite lookup_insert_ne by congruence.
    destruct (decide (e = "disconnect")) as [->|H2]; [by intros [= <-]|].
    rewrite lookup_insert_ne by congruence.
    destruct (decide (e = "error")) as [->|H3]; [by intros [= <-]|].
    by rewrite lookup_singleton_ne.
Qed.

Lemma setOptions_keeps_registry_witness :
  let w := run [On "connect" 5; Connect (Some "abc")] (constructor None None) in
  socket (this w) = Some 0 ∧
  eventListeners (this (exec (setOptions {[ "transports" := Str "websocket" ]}) w))
    = eventListeners (this w) ∧
  eventListeners (this w) !! "connect" = Some [named 5] ∧
  eventListeners (this (exec disconnect w)) !! "connect" = Some [].
Proof.
  intros w. split; [reflexivity|]. split; [|split; reflexivity].
  refine (proj1 (setOptions_keeps_registry None None
            [On "connect" 5; Connect (Some "abc")]
            {[ "transports" := Str "websocket" ]} 0 _)).
  reflexivity.
Defined.


(** * Further properties of the class *)

(** ** The lifecycle handlers *)

Lemma get_lifecycle (r : gmap string (list callback)) e :
  dom r = lifecycle → e ∈ lifecycle → get r e = Own (r !!! e).
Proof.
  intros Hdom He. rewrite <- Hdom in He. apply elem_of_dom in He as [l Hl].
  rewrite lookup_total_alt, Hl. by apply get_own.
Qed.

Lemma lifecycle_connect : "connect" ∈ lifecycle.
Proof. unfold lifecycle. rewrite !elem_of_union, !elem_of_singleton. auto. Qed.

Lemma lifecycle_disconnect : "disconnect" ∈ lifecycle.
Proof. unfold lifecycle. rewrite !elem_of_union, !elem_of_singleton. auto. Qed.

Lemma lifecycle_error : "error" ∈ lifecycle.
Proof. unfold lifecycle. rewrite !elem_of_union, !elem_of_singleton. auto. Qed.

(** A handler that logs and then triggers a lifecycle event. *)
Lemma handler_eq (pre : effect) e args w :
  dom (eventListeners (this w)) = lifecycle → e ∈ lifecycle →
  (perform pre ;; triggerEvent e args) w =
  (outcome (eventListeners (this w) !!! e),
   mkWorld (this w) (fresh w)
           (trace w ++ pre :: map (λ cb, Ecall cb args)
                                  (called (eventListeners (this w) !!! e)))).
Proof.
  intros Hdom He. unfold mbind, M_bind. unfold perform at 1.
  rewrite triggerEvent_eq. cbn [this fresh trace].
  rewrite (get_lifecycle _ _ Hdom He). by rewrite <- app_assoc.
Qed.

(** A delivery to a single registered function. *)
Lemma notify_single h e args w l :
  listeners (trace w) h e = [l] →
  notify h e args w = invoke args l w.
Proof.
  intros Hl. unfold notify, mbind, M_bind, history. rewrite Hl.
  cbn [forEach]. unfold mbind, M_bind, mret, M_ret.
  by destruct (invoke args l w) as [[[]|x] w'].
Qed.

Lemma listeners_elem tr h e l : l ∈ listeners tr h e ↔ Eon h e l ∈ tr.
Proof.
  unfold listeners. rewrite list_elem_of_omap. split.
  - intros (x & Hx & Hsome).
    destruct x as [| h' e' l' | | | | | |]; try discriminate.
    destruct (Nat.eqb h' h && String.eqb e' e) eqn:Eb; [|discriminate].
    injection Hsome as ->.
    apply andb_prop in Eb as [->%Nat.eqb_eq ->%String.eqb_eq]. exact Hx.
  - intros Hin. exists (Eon h e l). split; [exact Hin|].
    by rewrite Nat.eqb_refl, String.eqb_refl.
Qed.

Lemma filter_all {A} (p : A → bool) (l : list A) :
  (∀ x, x ∈ l → p x = true) → List.filter p l = l.
Proof.
  induction l as [|x l IH]; intros Hall; [reflexivity|]. cbn.
  rewrite (Hall x) by left. f_equal. apply IH. intros y Hy. apply Hall. by right.
Qed.

(** Without [receive], the functions on an opened handle are the arrows. *)
Lemma listeners_only_arrows w h e :
  wired w → h < fresh w →
  (∀ cb, Eon h e (Fn cb) ∉ trace w) →
  listeners (trace w) h e = listeners (wiring h) h e.
Proof.
  intros Hw Hh Hno. rewrite <- (Hw h e Hh). symmetry. apply filter_all.
  intros [a|cb] Hin; [reflexivity|].
  apply listeners_elem in Hin. by apply Hno in Hin.
Qed.

Lemma listeners_wiring_error h : listeners (wiring h) h "error" = [Arrow OnError].
Proof.
  unfold wiring, listeners. cbn [omap list_omap String.eqb Ascii.eqb Bool.eqb andb].
  by rewrite Nat.eqb_refl.
Qed.

Lemma listeners_wiring_disconnect h :
  listeners (wiring h) h "disconnect" = [Arrow OnDisconnect].
Proof.
  unfold wiring, listeners. cbn [omap list_omap String.eqb Ascii.eqb Bool.eqb andb].
  by rewrite Nat.eqb_refl.
Qed.

Lemma listeners_wiring_connect h : listeners (wiring h) h "connect" = [Arrow OnConnect].
Proof.
  unfold wiring, listeners. cbn [omap list_omap String.eqb Ascii.eqb Bool.eqb andb].
  by rewrite Nat.eqb_refl.
Qed.

Lemma listeners_wiring_connect_error h :
  listeners (wiring h) h "connect_error" = [Arrow OnConnectError].
Proof.
  unfold wiring, listeners. cbn [omap list_omap String.eqb Ascii.eqb Bool.eqb andb].
  by rewrite Nat.eqb_refl.
Qed.

(** X2: in every history, an error event on a handle the adapter has ever
    opened (the current one, or one it has since replaced or closed) on
    which [receive] was not used for [error] logs the error value and then
    calls the callbacks of the registry sequence of [error], in order, once
    per registration, each with the error value as its only argument, up
    to and including the first one that raises, whose exception ends the
    delivery; when none raises, all are called and the delivery completes
    normally. Further arguments of the notification are dropped. *)
Theorem error_event_passes_error
    (u : option string) (o : option (gmap string value)) (acts : list action)
    (h : handle) (err : value) (rest : list value) :
  let w := run acts (constructor u o) in
  h < fresh w →
  (∀ cb, Eon h "error" (Fn cb) ∉ trace w) →
  let regs := eventListeners (this w) !!! "error" in
  notify h "error" (err :: rest) w =
    (outcome regs,
     mkWorld (this w) (fresh w)
             (trace w ++ Eerror "Connection error:" err
                         :: map (λ cb, Ecall cb [err]) (called regs))) ∧
  (∀ cb, times_called cb (since w (exec (notify h "error" (err :: rest)) w))
         = count_occ callback_eq_dec (called regs) cb) ∧
  (∃ later, regs = called regs ++ later) ∧
  (Forall (λ cb, raises cb = None) regs →
   called regs = regs ∧ outcome regs = Normal ()).
Proof.
  intros w Hh Hno regs.
  pose proof (reachable_dom u o acts) as Hdom. fold w in Hdom.
  pose proof (reachable_wired u o acts) as Hw. fold w in Hw.
  assert (notify h "error" (err :: rest) w =
    (outcome regs,
     mkWorld (this w) (fresh w)
             (trace w ++ Eerror "Connection error:" err
                         :: map (λ cb, Ecall cb [err]) (called regs)))) as Hn.
  { rewrite (notify_single h "error" _ w (Arrow OnError))
      by (by rewrite (listeners_only_arrows w h "error" Hw Hh Hno),
                     listeners_wiring_error).
    cbn [invoke hd]. unfold handleError.
    apply (handler_eq _ "error" [err] w Hdom lifecycle_error). }
  split; [exact Hn|]. split; [|split].
  - intros cb. unfold exec. rewrite Hn. cbn [snd].
    rewrite (since_app _ _ (Eerror "Connection error:" err
                            :: map (λ c, Ecall c [err]) (called regs)))
      by reflexivity.
    unfold times_called. cbn [List.filter]. apply times_called_map.
  - apply called_prefix.
  - apply called_all.
Qed.

Lemma error_event_passes_error_witness :
  let w := run [On "error" 3; Connect None; On "error" 4; Connect None]
               (constructor None None) in
  0 < fresh w ∧
  (∀ cb, Eon 0 "error" (Fn cb) ∉ trace w) ∧
  since w (exec (notify 0 "error" [Str "boom"; Num 1]) w) =
    [ Eerror "Connection error:" (Str "boom");
      Ecall 3 [Str "boom"]; Ecall 4 [Str "boom"] ].
Proof.
  intros w.
  assert (0 < fresh w) as Hh by (vm_compute; lia).
  assert (∀ cb, Eon 0 "error" (Fn cb) ∉ trace w) as Hno.
  { intros cb Hin. vm_compute in Hin.
    repeat (apply elem_of_cons in Hin as [Hin|Hin]; [discriminate|]).
    by apply elem_of_nil in Hin. }
  split; [exact Hh|]. split; [exact Hno|].
  pose proof (proj1 (error_event_passes_error None None
             [On "error" 3; Connect None; On "error" 4; Connect None]
             0 (Str "boom") [Num 1] Hh Hno)) as Hn.
  apply since_app. unfold exec, w. rewrite Hn. reflexivity.
Defined.

(** X3: in every history, a disconnect event on a handle the adapter has
    ever opened on which [receive] was not used for [disconnect] logs and
    then calls the callbacks of the registry sequence of [disconnect], in
    order, once per registration, with no argument, up to and including
    the first one that raises, whose exception ends the delivery; when
    none raises, all are called. Whatever the library passes with the
    notification (the reason of the disconnection) never reaches them. *)
Theorem disconnect_event_drops_arguments
    (u : option string) (o : option (gmap string value)) (acts : list action)
    (h : handle) (args : list value) :
  let w := run acts (constructor u o) in
  h < fresh w →
  (∀ cb, Eon h "disconnect" (Fn cb) ∉ trace w) →
  let regs := eventListeners (this w) !!! "disconnect" in
  notify h "disconnect" args w =
    (outcome regs,
     mkWorld (this w) (fresh w)
             (trace w ++ Elog "Disconnected from server"
                         :: map (λ cb, Ecall cb []) (called regs))) ∧
  (∀ cb, times_called cb (since w (exec (notify h "disconnect" args) w))
         = count_occ callback_eq_dec (called regs) cb) ∧
  (∃ later, regs = called regs ++ later) ∧
  (Forall (λ cb, raises cb = None) regs →
   called regs = regs ∧ outcome regs = Normal ()).
Proof.
  intros w Hh Hno regs.
  pose proof (reachable_dom u o acts) as Hdom. fold w in Hdom.
  pose proof (reachable_wired u o acts) as Hw. fold w in Hw.
  assert (notify h "disconnect" args w =
    (outcome regs,
     mkWorld (this w) (fresh w)
             (trace w ++ Elog "Disconnected from server"
                         :: map (λ cb, Ecall cb []) (called regs)))) as Hn.
  { rewrite (notify_single h "disconnect" _ w (Arrow OnDisconnect))
      by (by rewrite (listeners_only_arrows w h "disconnect" Hw Hh Hno),
                     listeners_wiring_disconnect).
    cbn [invoke]. unfold handleDisconnect.
    apply (handler_eq _ "disconnect" [] w Hdom lifecycle_disconnect). }
  split; [exact Hn|]. split; [|split].
  - intros cb. unfold exec. rewrite Hn. cbn [snd].
    rewrite (since_app _ _ (Elog "Disconnected from server"
                            :: map (λ c, Ecall c []) (called regs)))
      by reflexivity.
    unfold times_called. cbn [List.filter]. apply times_called_map.
  - apply called_prefix.
  - apply called_all.
Qed.

Lemma disconnect_event_drops_arguments_witness :
  let w := run [Connect None; On "disconnect" 9] (constructor None None) in
  0 < fresh w ∧
  (∀ cb, Eon 0 "disconnect" (Fn cb) ∉ trace w) ∧
  since w (exec (notify 0 "disconnect" [Str "transport close"]) w) =
    [ Elog "Disconnected from server"; Ecall 9 [] ].
Proof.
  intros w.
  assert (0 < fresh w) as Hh by (vm_compute; lia).
  assert (∀ cb, Eon 0 "disconnect" (Fn cb) ∉ trace w) as Hno.
  { intros cb Hin. vm_compute in Hin.
    repeat (apply elem_of_cons in Hin as [Hin|Hin]; [discriminate|]).
    by apply elem_of_nil in Hin. }
  split; [exact Hh|]. split; [exact Hno|].
  pose proof (proj1 (disconnect_event_drops_arguments None None
             [Connect None; On "disconnect" 9] 0 [Str "transport close"] Hh Hno))
    as Hn.
  apply since_app. unfold exec, w. rewrite Hn. reflexivity.
Defined.

(** ** The trace only grows *)

Lemma step_trace_extends a w : ∃ es, trace (exec (step a) w) = trace w ++ es.
Proof.
  assert (∃ es, trace w = trace w ++ es) as Hsame
    by (exists []; by rewrite app_nil_r).
  destruct a as [tok| |e d|e cb|e cb|e cb|o|h e args|t|lw]; unfold exec; cbn [step].
  - rewrite connect_eq. eauto.
  - rewrite disconnect_eq. cbn [snd]. destruct (socket (this w)); [cbn; eauto | done].
  - rewrite send_eq. cbn [snd]. destruct (socket (this w)); [cbn; eauto | done].
  - rewrite receive_eq. cbn [snd]. destruct (socket (this w)); [cbn; eauto | done].
  - rewrite on_eq. by destruct (get (eventListeners (this w)) e).
  - rewrite off_eq. by destruct (get (eventListeners (this w)) e).
  - rewrite setOptions_eq. destruct (socket (this w)); [|done].
    rewrite connect_eq. cbn. rewrite <- app_assoc. eauto.
  - destruct (quiet_notify h e args w) as (_ & _ & es & Ht & _). eauto.
  - rewrite fire_eq, connect_eq. eauto.
  - rewrite libraryWrites_eq. cbn [snd]. by destruct (socket (this w)).
Qed.

Lemma run_trace_extends acts w : ∃ es, trace (run acts w) = trace w ++ es.
Proof.
  revert w. induction acts as [|a acts IH]; intros w.
  - exists []. by rewrite app_nil_r.
  - rewrite run_cons. destruct (IH (exec (step a) w)) as [es2 ->].
    destruct (step_trace_extends a w) as [es1 ->].
    exists (es1 ++ es2). by rewrite app_assoc.
Qed.

(** ** Before the first connection *)

Lemma offline_step a w :
  offline a = true →
  socket (this w) = None → trace w = [] →
  let w' := exec (step a) w in
  socket (this w') = None ∧ trace w' = [] ∧ fresh w' = fresh w ∧
  url (this w') = url (this w) ∧ token (this w') = token (this w).
Proof.
  intros Ha Hs Ht.
  destruct a as [tok| |e d|e cb|e cb|e cb|o|h e args|t|lw]; try discriminate;
    unfold exec; cbn [step].
  - rewrite disconnect_eq, Hs. done.
  - rewrite send_eq, Hs. done.
  - rewrite receive_eq, Hs. done.
  - rewrite on_eq. by destruct (get (eventListeners (this w)) e).
  - rewrite off_eq. by destruct (get (eventListeners (this w)) e).
  - rewrite setOptions_eq, Hs. done.
  - unfold notify, mbind, M_bind, history. rewrite Ht. cbn. done.
  - rewrite libraryWrites_eq, Hs. done.
Qed.

(** X5: an adapter that has never been connected is inert. Whatever
    sequence of [disconnect], [send], [receive], [on], [off], [setOptions]
    and notifications it goes through, it calls nothing (no library call,
    no log, no callback), stores no handle and keeps its URL and its absent
    token; a message sent or a callback handed to [receive] in that state
    is dropped for good. *)
Theorem never_connected_is_inert
    (u : option string) (o : option (gmap string value)) (acts : list action) :
  forallb offline acts = true →
  let w := run acts (constructor u o) in
  trace w = [] ∧
  socket (this w) = None ∧
  fresh w = 0 ∧
  url (this w) = default "http://localhost:3000" u ∧
  token (this w) = None ∧
  (∀ e d, send e d w = (Normal (), w)) ∧
  (∀ e cb, receive e cb w = (Normal (), w)) ∧
  disconnect w = (Normal (), w).
Proof.
  intros Hoff w.
  assert (trace w = [] ∧ socket (this w) = None ∧ fresh w = 0 ∧
          url (this w) = default "http://localhost:3000" u ∧
          token (this w) = None) as (Ht & Hs & Hf & Hu & Hk).
  { unfold w. clear w.
    assert (∀ w0, socket (this w0) = None → trace w0 = [] →
              let w := run acts w0 in
              trace w = [] ∧ socket (this w) = None ∧ fresh w = fresh w0 ∧
              url (this w) = url (this w0) ∧ token (this w) = token (this w0)) as Hgen.
    { induction acts as [|a acts IH]; intros w0 Hs0 Ht0; [done|].
      cbn [forallb] in Hoff. apply andb_prop in Hoff as [Ha Hoff].
      destruct (offline_step a w0 Ha Hs0 Ht0) as (Hs1 & Ht1 & Hf1 & Hu1 & Hk1).
      rewrite run_cons. destruct (IH Hoff _ Hs1 Ht1) as (? & ? & ? & ? & ?).
      repeat split; congruence. }
    apply (Hgen (constructor u o)); reflexivity. }
  repeat split; try assumption.
  - intros e d. by rewrite send_eq, Hs.
  - intros e cb. by rewrite receive_eq, Hs.
  - by rewrite disconnect_eq, Hs.
Qed.

Lemma never_connected_is_inert_witness :
  forallb offline [Send "chat" (Str "hi"); Receive "chat" 1; On "connect" 2;
                   SetOptions {[ "a" := Num 1 ]}; Disconnect;
                   Notify 0 "connect" []] = true ∧
  trace (run [Send "chat" (Str "hi"); Receive "chat" 1; On "connect" 2;
              SetOptions {[ "a" := Num 1 ]}; Disconnect;
              Notify 0 "connect" []] (constructor None None)) = [].
Proof.
  split; [reflexivity|].
  refine (proj1 (never_connected_is_inert None None _ _)). reflexivity.
Defined.


(** ** The stored handle *)

Lemma filter_io_passive es : forallb passive es = true → List.filter is_io es = [].
Proof.
  induction es as [|x es IH]; [reflexivity|]. cbn [forallb].
  intros [Hx Hes]%andb_prop. cbn [List.filter]. rewrite IH by exact Hes.
  by destruct x.
Qed.

Lemma connect_latest tok w :
  let w' := exec (connect tok) w in
  fresh w = length (List.filter is_io (trace w)) →
  socket (this w') = latest (fresh w') ∧
  fresh w' = length (List.filter is_io (trace w')).
Proof.
  intros w' Hn. unfold w', exec. rewrite connect_eq. cbn [snd this socket fresh trace].
  split; [reflexivity|].
  rewrite List.filter_app, length_app, <- Hn. cbn. lia.
Qed.

Lemma step_latest a w :
  socket (this w) = latest (fresh w) →
  fresh w = length (List.filter is_io (trace w)) →
  let w' := exec (step a) w in
  socket (this w') = latest (fresh w') ∧
  fresh w' = length (List.filter is_io (trace w')) ∧
  (fresh w ≤ fresh w')%nat.
Proof.
  intros Hs Hn.
  assert (∀ x, is_io x = false →
            let w' := mkWorld (this w) (fresh w) (trace w ++ [x]) in
            socket (this w') = latest (fresh w') ∧
            fresh w' = length (List.filter is_io (trace w')) ∧
            (fresh w ≤ fresh w')%nat) as Hadd.
  { intros x Hx. cbn. rewrite List.filter_app, length_app. cbn. rewrite Hx.
    cbn. split; [exact Hs|]. split; lia. }
  assert (socket (this w) = latest (fresh w) ∧
          fresh w = length (List.filter is_io (trace w)) ∧
          (fresh w ≤ fresh w)%nat) as Hsame by (split; [|split]; done).
  destruct a as [tok| |e d|e cb|e cb|e cb|o|h e args|t|lw]; cbn [step]; cbv zeta.
  - destruct (connect_latest tok w Hn) as [H1 H2]. split; [exact H1|].
    split; [exact H2|]. unfold exec. rewrite connect_eq. cbn. lia.
  - unfold exec. rewrite disconnect_eq. cbn [snd].
    destruct (socket (this w)) as [h|] eqn:Es;
      [|rewrite <- Es in Hsame; exact Hsame].
    apply (Hadd (Edisconnect h)). reflexivity.
  - unfold exec. rewrite send_eq. cbn [snd].
    destruct (socket (this w)) as [h|] eqn:Es;
      [|rewrite <- Es in Hsame; exact Hsame].
    apply (Hadd (Eemit h e d)). reflexivity.
  - unfold exec. rewrite receive_eq. cbn [snd].
    destruct (socket (this w)) as [h|] eqn:Es;
      [|rewrite <- Es in Hsame; exact Hsame].
    apply (Hadd (Eon h e (Fn cb))). reflexivity.
  - unfold exec. rewrite on_eq.
    destruct (get (eventListeners (this w)) e); exact Hsame.
  - unfold exec. rewrite off_eq.
    destruct (get (eventListeners (this w)) e); exact Hsame.
  - unfold exec. rewrite setOptions_eq.
    destruct (socket (this w)) as [h|] eqn:Es;
      [|rewrite <- Es in Hsame; exact Hsame].
    set (wc := mkWorld (set_options (o ∪ options (this w)) (this w))
                       (fresh w) (trace w ++ [Edisconnect h])).
    assert (fresh wc = length (List.filter is_io (trace wc))) as Hc.
    { cbn. rewrite List.filter_app, length_app. cbn. lia. }
    destruct (connect_latest (token (this w)) wc Hc) as [H1 H2].
    unfold exec in H1, H2. split; [exact H1|]. split; [exact H2|].
    rewrite connect_eq. cbn. lia.
  - destruct (quiet_notify h e args w) as (Ht & Hf & es & He & Hp).
    rewrite Ht, Hf, He, List.filter_app, length_app, (filter_io_passive es Hp).
    cbn. split; [exact Hs|]. split; lia.
  - unfold exec. rewrite fire_eq.
    destruct (connect_latest (token (this w)) w Hn) as [H1 H2]. split; [exact H1|].
    split; [exact H2|]. rewrite connect_eq. cbn. lia.
  - unfold exec. rewrite libraryWrites_eq. cbn [snd].
    destruct (socket (this w)) as [h|] eqn:Es;
      [|rewrite <- Es in Hsame; exact Hsame].
    cbn. rewrite Es. split; [exact Hs|]. split; [exact Hn | lia].
Qed.

Lemma run_latest acts w :
  socket (this w) = latest (fresh w) →
  fresh w = length (List.filter is_io (trace w)) →
  let w' := run acts w in
  socket (this w') = latest (fresh w') ∧
  fresh w' = length (List.filter is_io (trace w')) ∧
  (fresh w ≤ fresh w')%nat.
Proof.
  revert w. induction acts as [|a acts IH]; intros w Hs Hn; [cbn; auto|].
  cbv zeta. rewrite run_cons.
  destruct (step_latest a w Hs Hn) as (Hs1 & Hn1 & Hle1).
  destruct (IH _ Hs1 Hn1) as (Hs2 & Hn2 & Hle2).
  split; [exact Hs2|]. split; [exact Hn2|]. lia.
Qed.

(** X6: in every history the stored handle is the one the most recent call
    of [io] returned, and there is none exactly when [io] was never called;
    so no method ever clears the handle ([disconnect] included): a stored
    handle can only be replaced by a later one. *)
Theorem handle_is_latest_opened
    (u : option string) (o : option (gmap string value))
    (acts later : list action) :
  let w := run acts (constructor u o) in
  let n := length (List.filter is_io (trace w)) in
  socket (this w) = latest n ∧
  fresh w = n ∧
  (∀ h, socket (this w) = Some h →
        ∃ h', socket (this (run later w)) = Some h' ∧ (h ≤ h')%nat).
Proof.
  intros w n.
  destruct (run_latest acts (constructor u o) eq_refl eq_refl) as (Hs & Hn & _).
  fold w in Hs, Hn. fold n in Hn.
  split; [by rewrite <- Hn|]. split; [exact Hn|].
  intros h Hh.
  destruct (run_latest later w Hs Hn) as (Hs' & _ & Hle).
  rewrite Hs in Hh. destruct (fresh w) as [|k] eqn:Ek; [discriminate|].
  injection Hh as <-. rewrite Hs'.
  destruct (fresh (run later w)) as [|k'] eqn:Ek'; [lia|].
  exists k'. split; [reflexivity | lia].
Qed.

Lemma handle_is_latest_opened_witness :
  let w := run [Connect None; Connect None] (constructor None None) in
  socket (this w) = Some 1 ∧
  ∃ h', socket (this (run [Disconnect; Off "connect" 1] w)) = Some h' ∧ (1 ≤ h')%nat.
Proof.
  intros w. split; [reflexivity|].
  refine (proj2 (proj2
    (handle_is_latest_opened None None [Connect None; Connect None]
       [Disconnect; Off "connect" 1])) 1 _).
  reflexivity.
Defined.

(** ** Connections without a token *)

Lemma anonymous_step a w :
  anonymous a = true →
  token (this w) = None →
  let w' := exec (step a) w in
  token (this w') = None ∧ url (this w') = url (this w) ∧
  ∀ x, x ∈ since w w' → is_io x = true →
       ∃ o h, x = Eio (url (this w)) o h.
Proof.
  intros Ha Hk.
  assert (∀ tok w0, truthy tok = false → token (this w0) = None →
            let w' := exec (connect tok) w0 in
            token (this w') = None ∧ url (this w') = url (this w0) ∧
            ∀ x, x ∈ since w0 w' → is_io x = true →
                 ∃ o h, x = Eio (url (this w0)) o h) as Hconn.
  { intros tok w0 Htok Hk0 w'. unfold w'. rewrite connect_since.
    unfold exec. rewrite connect_eq. cbn [snd this token url].
    assert (effective_url (this w0) tok = url (this w0)) as ->.
    { unfold effective_url. destruct tok; by rewrite ?Htok. }
    unfold stored_token. rewrite Htok.
    split; [exact Hk0|]. split; [reflexivity|].
    intros x Hx Hio. apply elem_of_cons in Hx as [->|Hx]; [eauto|].
    unfold wiring in Hx. rewrite !elem_of_cons in Hx.
    destruct Hx as [->|[->|[->|[->|Hx]]]]; try discriminate.
    by apply elem_of_nil in Hx. }
  assert (∀ es w', trace w' = trace w ++ es → List.filter is_io es = [] →
            ∀ x, x ∈ since w w' → is_io x = true →
                 ∃ o h, x = Eio (url (this w)) o h) as Hnone.
  { intros es w' Ht Hes x Hx Hio. rewrite (since_app _ _ _ Ht) in Hx.
    assert (x ∈ List.filter is_io es) as Hin.
    { apply list_elem_of_In, List.filter_In. by rewrite <- list_elem_of_In. }
    rewrite Hes in Hin. by apply elem_of_nil in Hin. }
  destruct a as [tok| |e d|e cb|e cb|e cb|o|h e args|t|lw]; cbn [step]; cbv zeta.
  - apply Hconn; [|exact Hk]. cbn in Ha. by destruct (truthy tok).
  - unfold exec. rewrite disconnect_eq. cbn [snd].
    destruct (socket (this w)) as [h|] eqn:Es.
    + split; [exact Hk|]. split; [reflexivity|].
      by apply (Hnone [Edisconnect h]).
    + split; [exact Hk|]. split; [reflexivity|].
      apply (Hnone []); [by rewrite app_nil_r | reflexivity].
  - unfold exec. rewrite send_eq. cbn [snd].
    destruct (socket (this w)) as [h|] eqn:Es.
    + split; [exact Hk|]. split; [reflexivity|].
      by apply (Hnone [Eemit h e d]).
    + split; [exact Hk|]. split; [reflexivity|].
      apply (Hnone []); [by rewrite app_nil_r | reflexivity].
  - unfold exec. rewrite receive_eq. cbn [snd].
    destruct (socket (this w)) as [h|] eqn:Es.
    + split; [exact Hk|]. split; [reflexivity|].
      by apply (Hnone [Eon h e (Fn cb)]).
    + split; [exact Hk|]. split; [reflexivity|].
      apply (Hnone []); [by rewrite app_nil_r | reflexivity].
  - unfold exec. rewrite on_eq.
    destruct (get (eventListeners (this w)) e); cbn [snd];
      (split; [exact Hk|]; split; [reflexivity|];
       apply (Hnone []); [by rewrite app_nil_r | reflexivity]).
  - unfold exec. rewrite off_eq.
    destruct (get (eventListeners (this w)) e); cbn [snd];
      (split; [exact Hk|]; split; [reflexivity|];
       apply (Hnone []); [by rewrite app_nil_r | reflexivity]).
  - unfold exec. rewrite setOptions_eq.
    destruct (socket (this w)) as [h|] eqn:Es.
    + set (wc := mkWorld (set_options (o ∪ options (this w)) (this w))
                         (fresh w) (trace w ++ [Edisconnect h])).
      destruct (Hconn (token (this w)) wc) as (H1 & H2 & H3);
        [by rewrite Hk | exact Hk |].
      unfold exec in H1, H2, H3. split; [exact H1|]. split; [exact H2|].
      intros x Hx Hio. apply H3; [|exact Hio].
      rewrite connect_eq in Hx |- *. cbn [snd] in Hx |- *.
      rewrite (since_app _ _ (Eio (effective_url (this wc) (token (this w)))
                                  (options (this wc)) (fresh wc)
                              :: wiring (fresh wc))) by reflexivity.
      rewrite (since_app w _ (Edisconnect h
                              :: Eio (effective_url (this wc) (token (this w)))
                                     (options (this wc)) (fresh wc)
                              :: wiring (fresh wc))) in Hx
        by (cbn; by rewrite <- app_assoc).
      apply elem_of_cons in Hx as [->|Hx]; [discriminate | exact Hx].
    + cbn [snd]. split; [exact Hk|]. split; [reflexivity|].
      apply (Hnone []); [cbn; by rewrite app_nil_r | reflexivity].
  - destruct (quiet_notify h e args w) as (Ht & Hf & es & He & Hp).
    rewrite Ht. split; [exact Hk|]. split; [reflexivity|].
    apply (Hnone es _ He). by apply filter_io_passive.
  - unfold exec. rewrite fire_eq. apply Hconn; [by rewrite Hk | exact Hk].
  - unfold exec. rewrite libraryWrites_eq. cbn [snd].
    destruct (socket (this w)) as [h|] eqn:Es;
      (split; [exact Hk|]; split; [reflexivity|];
       apply (Hnone []); [cbn; by rewrite app_nil_r | reflexivity]).
Qed.

Lemma since_split w0 w1 w2 a b :
  trace w1 = trace w0 ++ a → trace w2 = trace w1 ++ b →
  since w0 w2 = since w0 w1 ++ since w1 w2.
Proof.
  intros H1 H2. rewrite (since_app _ _ _ H1), (since_app _ _ _ H2).
  apply since_app. by rewrite H2, H1, app_assoc.
Qed.

Lemma since_run_cons a acts w :
  since w (run (a :: acts) w) =
  since w (exec (step a) w) ++ since (exec (step a) w) (run (a :: acts) w).
Proof.
  destruct (step_trace_extends a w) as [es1 H1].
  destruct (run_trace_extends acts (exec (step a) w)) as [es2 H2].
  rewrite run_cons. by apply (since_split _ _ _ es1 es2).
Qed.

Lemma anonymous_run acts w :
  forallb anonymous acts = true →
  token (this w) = None →
  let w' := run acts w in
  token (this w') = None ∧ url (this w') = url (this w) ∧
  ∀ x, x ∈ since w w' → is_io x = true →
       ∃ o h, x = Eio (url (this w)) o h.
Proof.
  revert w. induction acts as [|a acts IH]; intros w Hall Hk; cbv zeta.
  - split; [exact Hk|]. split; [reflexivity|].
    intros x Hx. unfold since in Hx. cbn in Hx. rewrite drop_all in Hx.
    by apply elem_of_nil in Hx.
  - cbn [forallb] in Hall. apply andb_prop in Hall as [Ha Hall].
    destruct (anonymous_step a w Ha Hk) as (Hk1 & Hu1 & Hio1).
    destruct (IH _ Hall Hk1) as (Hk2 & Hu2 & Hio2).
    rewrite since_run_cons. rewrite run_cons.
    split; [exact Hk2|]. split; [congruence|].
    intros x Hx Hio.
    apply elem_of_app in Hx as [Hx|Hx]; [by apply Hio1|].
    rewrite <- Hu1. by apply Hio2.
Qed.

(** X7: as long as no [connect] is given a token that is neither [null]
    nor empty, the adapter stores no token and keeps the URL it was
    constructed with, and every connection it opens, by [connect], by
    [setOptions] or by the reconnect timer, is opened to exactly that URL,
    with no query parameter added. *)
Theorem tokenless_history_keeps_base_url
    (u : option string) (o : option (gmap string value)) (acts : list action) :
  forallb anonymous acts = true →
  let w := run acts (constructor u o) in
  let base := default "http://localhost:3000" u in
  token (this w) = None ∧
  url (this w) = base ∧
  ∀ x, x ∈ trace w → is_io x = true → ∃ o' h, x = Eio base o' h.
Proof.
  intros Hall w base.
  destruct (anonymous_run acts (constructor u o) Hall eq_refl) as (Hk & Hu & Hio).
  fold w in Hk, Hu, Hio. split; [exact Hk|]. split; [exact Hu|].
  intros x Hx. apply Hio. unfold since. cbn. by rewrite drop_0.
Qed.

Lemma tokenless_history_keeps_base_url_witness :
  let acts := [Connect None; SetOptions {[ "a" := Num 1 ]}; Connect (Some "");
               Notify 0 "connect_error" [Str "x"]; Fire Reconnect] in
  forallb anonymous acts = true ∧
  url (this (run acts (constructor (Some "http://host/") None))) = "http://host/".
Proof.
  intros acts. split; [reflexivity|].
  refine (proj1 (proj2
    (tokenless_history_keeps_base_url (Some "http://host/") None acts _))).
  reflexivity.
Defined.

(** ** Registering and removing *)

(** X8: for a lifecycle event [e], in every history: [on(e, cb)] followed
    by [off(e, cb)] puts the adapter back exactly as it was if, and only
    if, [cb] was not in the sequence of [e] before; [off(e, cb)] twice is
    [off(e, cb)] once; and neither call changes the sequence of another
    event. *)
Theorem on_off_round_trip
    (u : option string) (o : option (gmap string value)) (acts : list action)
    (e : string) (cb : callback) :
  e ∈ lifecycle →
  let w := run acts (constructor u o) in
  (cb ∉ eventListeners (this w) !!! e ↔ run [On e cb; Off e cb] w = w) ∧
  run [Off e cb; Off e cb] w = run [Off e cb] w ∧
  (∀ e', e' ≠ e →
         eventListeners (this (exec (on e cb) w)) !! e'
         = eventListeners (this w) !! e' ∧
         eventListeners (this (exec (off e cb) w)) !! e'
         = eventListeners (this w) !! e').
Proof.
  intros He w.
  destruct (reachable_registered u o acts e He) as [l Hl]. fold w in Hl.
  assert (eventListeners (this w) !!! e = l) as Htot
    by (by rewrite lookup_total_alt, Hl).
  assert (run [On e cb; Off e cb] w =
          mkWorld (set_eventListeners
                     (<[e := filter (λ c, c ≠ cb) l]> (eventListeners (this w)))
                     (this w))
                  (fresh w) (trace w)) as Hrun.
  { rewrite !run_cons. cbn [run fold_left step].
    unfold exec. rewrite on_eq, (get_own _ _ _ Hl). cbn [snd].
    rewrite off_eq. cbn [this eventListeners set_eventListeners].
    rewrite (get_own _ _ (l ++ [cb])) by apply lookup_insert_eq. cbn [snd].
    rewrite insert_insert_eq, filter_app.
    rewrite (filter_cons_False _ cb) by (intros H; by apply H).
    by rewrite filter_nil, app_nil_r. }
  split; [|split].
  - rewrite Htot, Hrun. split.
    + intros Hnot. rewrite (filter_absent cb l Hnot), insert_id by exact Hl.
      by destruct w as [[]].
    + intros Heq Hin.
      assert (eventListeners (this w) !! e = Some (filter (λ c, c ≠ cb) l)) as Hl'.
      { rewrite <- Heq at 1. cbn. apply lookup_insert_eq. }
      rewrite Hl in Hl'. injection Hl' as Hl'. rewrite Hl' in Hin.
      apply list_elem_of_filter in Hin as [Hne _]. by apply Hne.
  - rewrite !run_cons. cbn [run fold_left step].
    unfold exec. rewrite (off_eq e cb w), (get_own _ _ _ Hl). cbn [snd].
    rewrite off_eq. cbn [this eventListeners set_eventListeners].
    rewrite (get_own _ _ (filter (λ c, c ≠ cb) l)) by apply lookup_insert_eq.
    cbn [snd fresh trace this set_eventListeners url options socket
         eventListeners token].
    rewrite insert_insert_eq.
    rewrite (filter_absent cb (filter (λ c, c ≠ cb) l))
      by (rewrite list_elem_of_filter; intros [Hne _]; by apply Hne).
    reflexivity.
  - intros e' Hne. unfold exec. rewrite on_eq, off_eq, (get_own _ _ _ Hl).
    cbn. by rewrite !lookup_insert_ne.
Qed.

Lemma on_off_round_trip_witness :
  let w := run [On "connect" 1; Connect None] (constructor None None) in
  "connect" ∈ lifecycle ∧
  (named 2 ∉ eventListeners (this w) !!! "connect") ∧
  run [On "connect" 2; Off "connect" 2] w = w.
Proof.
  intros w.
  assert (named 2 ∉ eventListeners (this w) !!! "connect") as Hnot.
  { vm_compute. intros Hin. apply elem_of_cons in Hin as [Hin|Hin]; [discriminate|].
    by apply elem_of_nil in Hin. }
  split; [apply lifecycle_connect|]. split; [exact Hnot|].
  exact (proj1 (proj1 (on_off_round_trip None None [On "connect" 1; Connect None]
                  "connect" 2 lifecycle_connect)) Hnot).
Defined.

(** ** Options and the next connection *)

(** X9: options given to [setOptions] while no handle is stored cause no
    call at all, and they are the options the next [connect] hands to [io],
    merged over the ones stored before; as far as the stored options go,
    two [setOptions] calls are one call with the merged argument, and a
    repeated call changes nothing. *)
Theorem options_reach_next_connection
    (w : World) (a b : gmap string value) (tok : option string) :
  socket (this w) = None →
  since w (exec (setOptions a) w) = [] ∧
  since w (run [SetOptions a; Connect tok] w) =
    Eio (effective_url (this w) tok) (a ∪ options (this w)) (fresh w)
    :: wiring (fresh w) ∧
  options (this (run [SetOptions a; SetOptions b] w))
    = options (this (exec (setOptions (b ∪ a)) w)) ∧
  options (this (run [SetOptions a; SetOptions a] w))
    = options (this (exec (setOptions a) w)).
Proof.
  intros Hs. split; [|split; [|split]].
  - apply since_app. unfold exec. rewrite setOptions_eq, Hs. cbn.
    by rewrite app_nil_r.
  - apply since_app. rewrite !run_cons. cbn [run fold_left step].
    unfold exec. rewrite setOptions_eq, Hs. cbn [snd]. by rewrite connect_eq.
  - rewrite !run_cons. cbn [run fold_left step].
    rewrite !setOptions_options. by rewrite (assoc_L (∪)).
  - rewrite !run_cons. cbn [run fold_left step].
    rewrite !setOptions_options. by rewrite (assoc_L (∪)), (idemp_L (∪)).
Qed.

Lemma options_reach_next_connection_witness :
  let w := constructor (Some "http://host/") (Some {[ "path" := Str "/ws" ]}) in
  socket (this w) = None ∧
  since w (run [SetOptions {[ "forceNew" := Bool true ]}; Connect None] w) =
    Eio "http://host/" {[ "forceNew" := Bool true; "path" := Str "/ws" ]} 0
    :: wiring 0.
Proof.
  intros w. split; [reflexivity|].
  pose proof (proj1 (proj2 (options_reach_next_connection w
    {[ "forceNew" := Bool true ]} ∅ None eq_refl))) as H.
  rewrite H. vm_compute. reflexivity.
Defined.

(** ** Reconnection timers *)

Lemma reachable_connect_error_timers u o acts h args :
  let w := run acts (constructor u o) in
  h < fresh w →
  let w' := exec (notify h "connect_error" args) w in
  this w' = this w ∧ fresh w' = fresh w ∧
  List.filter is_timer (since w w') = [EsetTimeout Reconnect 3000].
Proof.
  intros w Hh w'.
  pose proof (reachable_wired u o acts h "connect_error" Hh) as Hw. fold w in Hw.
  rewrite listeners_wiring_connect_error in Hw.
  assert (notify h "connect_error" args w =
          (Normal (),
           mkWorld (this w) (fresh w)
                   (trace w ++ flat_map (connect_error_effects args)
                                        (listeners (trace w) h "connect_error"))))
    as Hn.
  { unfold notify, mbind, M_bind, history.
    apply forEach_invoke_connect_error. intros l Hin Hl.
    assert (l ∈ List.filter is_arrow (listeners (trace w) h "connect_error"))
      as Hin'.
    { apply list_elem_of_In, List.filter_In. by rewrite <- list_elem_of_In. }
    rewrite Hw in Hin'. by apply list_elem_of_singleton in Hin'. }
  unfold w', exec. rewrite Hn. cbn [snd this fresh].
  split; [reflexivity|]. split; [reflexivity|].
  rewrite (since_app _ _ (flat_map (connect_error_effects args)
                                   (listeners (trace w) h "connect_error")))
    by reflexivity.
  by rewrite timers_connect_error_effects, Hw.
Qed.

(** X10: reconnection timers stack. In every history, [k] connect-error
    notifications in a row on a handle the adapter has opened set [k]
    timers of 3000 ms, one per notification, none of them replacing or
    cancelling an earlier one, and leave the adapter itself unchanged. *)
Theorem connect_errors_stack_timers
    (u : option string) (o : option (gmap string value)) (acts : list action)
    (h : handle) (args : list value) (k : nat) :
  let w := run acts (constructor u o) in
  h < fresh w →
  let wk := run (repeat (Notify h "connect_error" args) k) w in
  this wk = this w ∧
  List.filter is_timer (since w wk) = repeat (EsetTimeout Reconnect 3000) k.
Proof.
  revert acts. induction k as [|k IH]; intros acts w Hh wk.
  - split; [reflexivity|]. unfold since, wk. cbn. by rewrite drop_all.
  - unfold wk. cbn [repeat]. rewrite since_run_cons, run_cons. cbn [step].
    destruct (reachable_connect_error_timers u o acts h args Hh) as (Ht & Hf & Htm).
    fold w in Ht, Hf, Htm.
    assert (exec (notify h "connect_error" args) w
            = run (acts ++ [Notify h "connect_error" args]) (constructor u o)) as Hw1
      by (by rewrite run_app).
    specialize (IH (acts ++ [Notify h "connect_error" args])).
    cbv zeta in IH. rewrite <- Hw1 in IH.
    destruct IH as [IHt IHtm]; [by rewrite Hf|].
    split; [congruence|].
    by rewrite List.filter_app, Htm, IHtm.
Qed.

Lemma connect_errors_stack_timers_witness :
  let w := run [Connect (Some "abc")] (constructor None None) in
  0 < fresh w ∧
  List.filter is_timer
    (since w (run (repeat (Notify 0 "connect_error" [Str "x"]) 3) w))
  = [ EsetTimeout Reconnect 3000; EsetTimeout Reconnect 3000;
      EsetTimeout Reconnect 3000 ].
Proof.
  intros w. assert (0 < fresh w) as Hh by (vm_compute; lia).
  split; [exact Hh|].
  exact (proj2 (connect_errors_stack_timers None None [Connect (Some "abc")]
                  0 [Str "x"] 3 Hh)).
Defined.

(** X11: every reconnection timer that fires opens one more connection and
    closes none, whatever state the adapter is in, also after an explicit
    [disconnect()]: [k] timers firing in a row call [io] [k] times, never
    call [disconnect] on a handle, and leave the last handle stored. *)
Theorem fired_timers_open_connections (w : World) (k : nat) :
  let wk := run (repeat (Fire Reconnect) k) w in
  fresh wk = fresh w + k ∧
  length (List.filter is_io (since w wk)) = k ∧
  List.filter is_disconnect (since w wk) = [] ∧
  socket (this wk) = match k with
                     | 0 => socket (this w)
                     | S k' => Some (fresh w + k')
                     end ∧
  eventListeners (this wk) = eventListeners (this w).
Proof.
  revert w. induction k as [|k IH]; intros w wk.
  - unfold wk, since. cbn. rewrite drop_all. repeat split; lia.
  - unfold wk. cbn [repeat]. rewrite since_run_cons, run_cons. cbn [step].
    destruct (IH (exec (fire Reconnect) w)) as (Hf & Hio & Hd & Hs & Hr).
    rewrite !List.filter_app, length_app, Hio, Hd, Hf, Hs, Hr.
    rewrite (since_app _ _ (Eio (effective_url (this w) (token (this w)))
                                (options (this w)) (fresh w) :: wiring (fresh w)))
      by (unfold exec; by rewrite fire_eq, connect_eq).
    unfold exec. rewrite fire_eq, connect_eq. cbn.
    repeat split; try lia.
    destruct k; f_equal; lia.
Qed.

(** ** Closing again, and sending *)

(** X12: [disconnect()] is not guarded by the state of the connection: with
    a handle stored, [k] calls in a row call [disconnect] on that same
    handle [k] times, and the handle stays stored. *)
Theorem repeated_disconnect_closes_again (w : World) (h : handle) (k : nat) :
  socket (this w) = Some h →
  let wk := run (repeat Disconnect k) w in
  since w wk = repeat (Edisconnect h) k ∧
  socket (this wk) = Some h.
Proof.
  revert w. induction k as [|k IH]; intros w Hs wk.
  - unfold wk, since. cbn. by rewrite drop_all.
  - unfold wk. cbn [repeat]. rewrite since_run_cons, run_cons. cbn [step].
    assert (socket (this (exec disconnect w)) = Some h) as Hs1
      by (unfold exec; by rewrite disconnect_eq, Hs).
    destruct (IH _ Hs1) as [Hsince Hsock]. rewrite Hsince, Hsock.
    rewrite (since_app _ _ [Edisconnect h])
      by (unfold exec; by rewrite disconnect_eq, Hs).
    done.
Qed.

Lemma repeated_disconnect_closes_again_witness :
  let w := run [Connect None] (constructor None None) in
  socket (this w) = Some 0 ∧
  since w (run (repeat Disconnect 2) w) = [Edisconnect 0; Edisconnect 0].
Proof.
  intros w. split; [reflexivity|].
  exact (proj1 (repeated_disconnect_closes_again w 0 2 eq_refl)).
Defined.

(** X13: with a handle stored, a sequence of [send] calls reaches the
    library as the same sequence of [emit] calls on that handle: same
    order, same event names and payloads, nothing added, dropped, buffered
    or filtered, and the adapter itself is unchanged. *)
Theorem sends_are_forwarded_in_order
    (w : World) (h : handle) (msgs : list (string * value)) :
  socket (this w) = Some h →
  let w' := run (map (λ m, Send m.1 m.2) msgs) w in
  this w' = this w ∧
  fresh w' = fresh w ∧
  since w w' = map (λ m, Eemit h m.1 m.2) msgs.
Proof.
  revert w. induction msgs as [|[e d] msgs IH]; intros w Hs w'.
  - unfold w', since. cbn. by rewrite drop_all.
  - unfold w'. cbn [map]. rewrite since_run_cons, run_cons. cbn [step fst snd].
    assert (exec (send e d) w
            = mkWorld (this w) (fresh w) (trace w ++ [Eemit h e d])) as Hw1
      by (unfold exec; by rewrite send_eq, Hs).
    destruct (IH (exec (send e d) w)) as (Ht & Hf & Hsince);
      [by rewrite Hw1|].
    rewrite Ht, Hf, Hsince, (since_app _ _ [Eemit h e d]) by (by rewrite Hw1).
    by rewrite Hw1.
Qed.

Lemma sends_are_forwarded_in_order_witness :
  let w := run [Connect None; Disconnect] (constructor None None) in
  socket (this w) = Some 0 ∧
  since w (run [Send "a" (Num 1); Send "connect" Null; Send "a" (Num 1)] w) =
    [Eemit 0 "a" (Num 1); Eemit 0 "connect" Null; Eemit 0 "a" (Num 1)].
Proof.
  intros w. split; [reflexivity|].
  exact (proj2 (proj2 (sends_are_forwarded_in_order w 0
           [("a", Num 1); ("connect", Null); ("a", Num 1)] eq_refl))).
Defined.

(** ** The token in the URL *)

Lemma length_append (a b : string) :
  String.length (a +:+ b) = String.length a + String.length b.
Proof.
  induction a as [|c a IH]; [reflexivity|].
  change (S (String.length (a +:+ b)) = S (String.length a + String.length b)).
  by rewrite IH.
Qed.

(** X14: [appendTokenToURL] keeps the URL as it is and puts the token
    behind it verbatim, with no escaping: the result is seven characters
    ([?] or [&], then [token=]) longer than URL and token together,
    distinct tokens give distinct results, and a token that contains
    [&token=] gives the very URL that appending its two parts one after
    the other gives. *)
Theorem appendTokenToURL_verbatim (url t t2 : string) :
  (∃ rest, appendTokenToURL url t = url +:+ rest) ∧
  String.length (appendTokenToURL url t) = String.length url + 7 + String.length t ∧
  (appendTokenToURL url t = appendTokenToURL url t2 → t = t2) ∧
  appendTokenToURL url (t +:+ "&token=" +:+ t2)
    = appendTokenToURL (appendTokenToURL url t) t2.
Proof.
  split; [|split; [|split]].
  - unfold appendTokenToURL. eauto.
  - unfold appendTokenToURL. rewrite !length_append.
    destruct (includes url "?"); cbn; lia.
  - unfold appendTokenToURL. intros H.
    by repeat apply String.app_inj in H.
  - pose proof (proj1 (appendTokenToURL_includes url t)) as Hq.
    unfold appendTokenToURL at 2. rewrite Hq.
    unfold appendTokenToURL. by rewrite !append_assoc.
Qed.

(** ** Event names that raise *)

(** X15: in every history, [on(e, cb)] and [off(e, cb)] raise a
    [TypeError] to their caller, and change nothing, exactly when [e] is a
    name the registry object inherits from [Object.prototype]; for every
    other name, recognized or not, they complete normally. Neither makes
    any call into the library or of a callback. *)
Theorem on_off_raise_exactly_for_inherited_names
    (u : option string) (o : option (gmap string value)) (acts : list action)
    (e : string) (cb : callback) :
  let w := run acts (constructor u o) in
  on e cb w =
    (if bool_decide (e ∈ Object_prototype)
     then (Throw (TypeError "this.eventListeners[event].push is not a function"), w)
     else (Normal (), exec (on e cb) w)) ∧
  off e cb w =
    (if bool_decide (e ∈ Object_prototype)
     then (Throw (TypeError "this.eventListeners[event].filter is not a function"), w)
     else (Normal (), exec (off e cb) w)) ∧
  trace (exec (on e cb) w) = trace w ∧
  trace (exec (off e cb) w) = trace w.
Proof.
  intros w.
  assert (get (eventListeners (this w)) e =
          if bool_decide (e ∈ Object_prototype) then Inherited
          else match eventListeners (this w) !! e with
               | Some l => Own l
               | None => Absent
               end) as Hget.
  { unfold get. destruct (decide (e ∈ lifecycle)) as [He|He].
    - destruct (reachable_registered u o acts e He) as [l Hl]. fold w in Hl.
      rewrite Hl. apply lifecycle_not_inherited in He.
      by rewrite bool_decide_eq_false_2.
    - pose proof (reachable_unregistered u o acts e He) as Hn. fold w in Hn.
      rewrite Hn. by case_bool_decide. }
  unfold exec. rewrite on_eq, off_eq, Hget.
  case_bool_decide; [done|].
  destruct (eventListeners (this w) !! e); done.
Qed.
